(** * get_cmake_cuda_archs: selection, filtering and formatting of CUDA
      architecture targets.

    Shallow embedding of [scripts/get_cmake_cuda_archs.py].  Python [str]
    values are modelled as [string]: sequences of characters with codes 0
    to 255, read as the code points of that number and compared by code as
    Python compares code points; text with code points above 255 is not
    covered.  Python [int] is [Z] and [list[str]] is [list string].  A call
    of [die] and an uncaught exception are results of their own ([Die],
    [Raise]); [int] refuses a string of more than 4300 digits, and with it
    the sort key, the sort and the minimum-version filter raise.  What the program asks of the outside (the search path, the
    file system, the [nvcc] process, the machine name) are the actions of a
    tree, [proc], which [run] interprets in a [world].  The command line is
    taken as parsed ([args]); the debug lines written with [logging.debug]
    carry no data back into the program and are left out. *)

From Stdlib Require Import List String Ascii ZArith NArith Lia Bool.
From Stdlib Require Import Sorting.Sorted Sorting.Permutation DecimalString.
Import ListNotations.

Open Scope string_scope.
Open Scope Z_scope.

(** ** Results of fallible functions *)

Inductive result (A : Type) : Type :=
| Ok (a : A)                 (* normal return *)
| Die (msg : string)         (* die(msg): error line logged, sys.exit(1) *)
| Raise (exn : string).      (* uncaught exception *)

Arguments Ok {A} a.
Arguments Die {A} msg.
Arguments Raise {A} exn.

Definition rbind {A B} (r : result A) (k : A -> result B) : result B :=
  match r with
  | Ok a => k a
  | Die msg => Die msg
  | Raise exn => Raise exn
  end.

(** ** Characters *)

Module Char.

Definition code (c : ascii) : N := N_of_ascii c.

Definition in_range (lo hi : N) (c : ascii) : bool :=
  ((lo <=? code c) && (code c <=? hi))%N.

(** [\d] on 8-bit characters. *)
Definition is_digit (c : ascii) : bool := in_range 48 57 c.

(** [[a-zA-Z]]. *)
Definition is_letter (c : ascii) : bool :=
  in_range 97 122 c || in_range 65 90 c.

(** [\s] and the characters removed by [str.strip()]: tab, line feed,
    vertical tab, form feed, carriage return, the four separators
    0x1c..0x1f, the space, next line (0x85) and the no-break space
    (0xa0). *)
Definition is_space (c : ascii) : bool :=
  in_range 9 13 c || in_range 28 31 c || (code c =? 32)%N
  || (code c =? 133)%N || (code c =? 160)%N.

Definition LF : ascii := ascii_of_N 10.
Definition comma : ascii := ascii_of_N 44.

(** [str.lower()] on one character: the letters A to Z, and the upper-case
    letters 0xc0 to 0xde but for the multiplication sign 0xd7. *)
Definition lower (c : ascii) : ascii :=
  if in_range 65 90 c || (in_range 192 222 c && negb (code c =? 215)%N)
  then ascii_of_N (code c + 32) else c.

Definition digit_value (c : ascii) : Z := Z.of_N (code c) - 48.

End Char.

(** ** Strings *)

Module Str.

Fixpoint lower (s : string) : string :=
  match s with
  | EmptyString => EmptyString
  | String c s' => String (Char.lower c) (lower s')
  end.

Fixpoint forallb (p : ascii -> bool) (s : string) : bool :=
  match s with
  | EmptyString => true
  | String c s' => p c && forallb p s'
  end.

(** The longest prefix of characters satisfying [p]. *)
Fixpoint take_while (p : ascii -> bool) (s : string) : string :=
  match s with
  | EmptyString => EmptyString
  | String c s' => if p c then String c (take_while p s') else EmptyString
  end.

Fixpoint drop_while (p : ascii -> bool) (s : string) : string :=
  match s with
  | EmptyString => EmptyString
  | String c s' => if p c then drop_while p s' else s
  end.

Fixpoint rev_onto (s acc : string) : string :=
  match s with
  | EmptyString => acc
  | String c s' => rev_onto s' (String c acc)
  end.

Definition rev (s : string) : string := rev_onto s EmptyString.

(** [s.strip()]. *)
Definition strip (s : string) : string :=
  rev (drop_while Char.is_space (rev (drop_while Char.is_space s))).

(** [s.startswith(p)]. *)
Fixpoint startswith (p s : string) : bool :=
  match p with
  | EmptyString => true
  | String a p' =>
      match s with
      | EmptyString => false
      | String b s' => Ascii.eqb a b && startswith p' s'
      end
  end.

(** [s.endswith(suffix)]. *)
Definition endswith (suffix s : string) : bool :=
  startswith (rev suffix) (rev s).

(** [s[n:]]. *)
Fixpoint drop (n : nat) (s : string) : string :=
  match n, s with
  | O, _ => s
  | S n', String _ s' => drop n' s'
  | S _, EmptyString => EmptyString
  end.

(** [s.split(sep)] for a one-character separator: the pieces between
    consecutive separators, empty pieces included. *)
Fixpoint split_on (sep : ascii) (s : string) : list string :=
  match s with
  | EmptyString => [EmptyString]
  | String c s' =>
      if Ascii.eqb c sep then EmptyString :: split_on sep s'
      else match split_on sep s' with
           | [] => [String c EmptyString]
           | piece :: pieces => String c piece :: pieces
           end
  end.

(** [sep.join(parts)]. *)
Definition join (sep : string) (parts : list string) : string :=
  String.concat sep parts.

(** The number a string of decimal digits writes. *)
Definition digits_value (d : string) : Z :=
  fold_left (fun acc c => 10 * acc + Char.digit_value c)
            (list_ascii_of_string d) 0.

(** [sys.int_max_str_digits], as the interpreter starts with it. *)
Definition int_max_str_digits : N := 4300.

(** [int(d)] for a string of decimal digits: the conversion is refused
    with a [ValueError] when there are more digits than that limit,
    leading zeros counted. *)
Definition int_of_digits (d : string) : result Z :=
  if (int_max_str_digits <? N.of_nat (String.length d))%N
  then Raise "ValueError"
  else Ok (digits_value d).

(** [str(n)] and f-string formatting of an [int]. *)
Definition of_int (n : Z) : string := NilZero.string_of_int (Z.to_int n).

(** Formatting of an [Optional[int]]: [None] prints as [None]. *)
Definition of_optional_int (n : option Z) : string :=
  match n with
  | None => "None"
  | Some v => of_int v
  end.

End Str.

(** ** Canonical ordering *)

(** [re.match(r"\d+", arch)]: the greedy run of leading digits, [None]
    when there is none. *)
Definition re_match_digits (arch : string) : option string :=
  match Str.take_while Char.is_digit arch with
  | EmptyString => None
  | d => Some d
  end.

Definition get_arch_sort_key (arch : string) : result (Z * string) :=
  match re_match_digits arch with
  | None => Ok (0, arch)
  | Some d => rbind (Str.int_of_digits d) (fun n => Ok (n, arch))
  end.

(** Python's [<] on [(int, str)] tuples. *)
Definition key_ltb (k1 k2 : Z * string) : bool :=
  (fst k1 <? fst k2) || ((fst k1 =? fst k2) && String.ltb (snd k1) (snd k2)).

(** [sorted(archs, key=get_arch_sort_key)].  The keys are computed first,
    one call for each element in the order of the list, and an exception
    of one of these calls is the exception of the sort. *)
Fixpoint keyed (archs : list string) : result (list ((Z * string) * string)) :=
  match archs with
  | [] => Ok []
  | arch :: rest =>
      rbind (get_arch_sort_key arch) (fun key =>
      rbind (keyed rest) (fun pairs => Ok ((key, arch) :: pairs)))
  end.

(** The elements are then put in the order of their keys by a stable
    sort: an element goes in front of the first element whose key is not
    smaller than its own. *)
Fixpoint insert_keyed (p : (Z * string) * string)
  (l : list ((Z * string) * string)) : list ((Z * string) * string) :=
  match l with
  | [] => [p]
  | q :: l' => if key_ltb (fst q) (fst p) then q :: insert_keyed p l' else p :: l
  end.

Fixpoint sort_keyed (l : list ((Z * string) * string))
  : list ((Z * string) * string) :=
  match l with
  | [] => []
  | p :: l' => insert_keyed p (sort_keyed l')
  end.

Definition sorted (archs : list string) : result (list string) :=
  rbind (keyed archs) (fun pairs => Ok (map snd (sort_keyed pairs))).

(** ** Target Formatter *)

(** [re.search(r"[a-zA-Z]$", arch)]: a letter at a position where [$]
    matches, that is at the end of the string or in front of a line feed
    that ends the string. *)
Definition at_dollar (rest : string) : bool :=
  match rest with
  | EmptyString => true
  | String c EmptyString => Ascii.eqb c Char.LF
  | _ => false
  end.

Fixpoint re_search_letter_end (arch : string) : bool :=
  match arch with
  | EmptyString => false
  | String c rest =>
      (Char.is_letter c && at_dollar rest) || re_search_letter_end rest
  end.

(** The loop over [reversed(sorted_archs)] with its [break]. *)
Fixpoint first_unsuffixed (rev_archs : list string) : string :=
  match rev_archs with
  | [] => EmptyString
  | arch :: rest =>
      if negb (re_search_letter_end arch) then arch else first_unsuffixed rest
  end.

Definition ptx_target_base (sorted_archs : list string) : string :=
  let base := first_unsuffixed (rev sorted_archs) in
  if String.eqb base EmptyString then last sorted_archs EmptyString else base.

Definition real (arch : string) : string := arch ++ "-real".
Definition virtual (arch : string) : string := arch ++ "-virtual".

Definition generate_sass_ptx_arch_list (target_archs : list string)
  : result (list string) :=
  match target_archs with
  | [] => Die "Cannot generate SASS/PTX list from empty target architectures."
  | _ =>
      rbind (sorted target_archs) (fun sorted_archs =>
        let sass_targets := map real sorted_archs in
        let ptx_target := virtual (ptx_target_base sorted_archs) in
        Ok (sass_targets ++ [ptx_target])%list)
  end.

(** ** Capability Prober *)

(** What [subprocess.run(cmd, capture_output=True, text=True, check=True)]
    can come back with. *)
Inductive run_result : Type :=
| FileNotFoundError
| CalledProcessError (stderr : string)
| Completed (stdout : string).

(** [raw_archs.add(x)] on a set kept as a duplicate-free list. *)
Definition set_add (x : string) (raw_archs : list string) : list string :=
  if existsb (String.eqb x) raw_archs then raw_archs else (raw_archs ++ [x])%list.

(** The loop of [get_nvcc_archs] over the lines of the output. *)
Fixpoint collect_sm (lines : list string) (raw_archs : list string)
  : list string :=
  match lines with
  | [] => raw_archs
  | line :: rest =>
      let line := Str.strip line in
      if Str.startswith "sm_" line
      then collect_sm rest (set_add (Str.drop 3 line) raw_archs)
      else collect_sm rest raw_archs
  end.

Definition code_ls_lines (stdout : string) : list string :=
  Str.split_on Char.LF (Str.strip stdout).

(** [get_nvcc_archs] once [subprocess.run] has come back. *)
Definition parse_code_ls (nvcc_path : string) (r : run_result)
  : result (list string) :=
  let cmd := [nvcc_path; "-code-ls"] in
  match r with
  | FileNotFoundError =>
      Die ("nvcc command '" ++ nvcc_path ++ "' not found or not executable.")
  | CalledProcessError stderr =>
      Die ("Command '" ++ Str.join " " cmd ++ "' failed:"
             ++ String Char.LF stderr)
  | Completed stdout =>
      match collect_sm (code_ls_lines stdout) [] with
      | [] => Die "Could not parse any architectures (sm_XX) from 'nvcc -code-ls' output."
      | raw_archs => sorted raw_archs
      end
  end.

(** ** Request parsing *)

(** The class [[\s,]]. *)
Definition is_sep (c : ascii) : bool :=
  Char.is_space c || Ascii.eqb c Char.comma.

(** [re.split(r"[\s,]+", s)]: the pieces between maximal runs of
    separators; [in_run] tells that the previous character was one. *)
Fixpoint split_runs (in_run : bool) (s : string) : list string :=
  match s with
  | EmptyString => [EmptyString]
  | String c s' =>
      if is_sep c then
        if in_run then split_runs true s'
        else EmptyString :: split_runs true s'
      else match split_runs false s' with
           | [] => [String c EmptyString]
           | piece :: pieces => String c piece :: pieces
           end
  end.

Definition re_split (s : string) : list string := split_runs false s.

Definition nonempty (s : string) : bool := negb (String.eqb s EmptyString).

Definition parse_requested_archs (req_str : string) : list string :=
  if String.eqb req_str EmptyString then []
  else
    let archs := re_split (Str.strip req_str) in
    filter nonempty archs.

(** ** Filter chain *)

(** The list comprehension of [filter_archs_with_min_arch], token by
    token: a token without leading digit makes [re.match] return [None],
    and [.group(1)] on it raises; [int] raises on too many digits. *)
Fixpoint keep_min_arch (archs : list string) (min_arch : Z)
  : result (list string) :=
  match archs with
  | [] => Ok []
  | arch :: rest =>
      match re_match_digits arch with
      | None => Raise "AttributeError"
      | Some d =>
          rbind (Str.int_of_digits d) (fun n =>
          rbind (keep_min_arch rest min_arch) (fun kept =>
            Ok (if n >=? min_arch then arch :: kept else kept)))
      end
  end.

Definition filter_archs_with_min_arch (archs : list string)
  (min_arch : option Z) : result (list string) :=
  match min_arch with
  | None => Ok archs
  | Some m => if m <=? 0 then Ok archs else keep_min_arch archs m
  end.

Definition igpu_archs : list string := ["72"; "87"; "101"; "101a"].

Definition mem (x : string) (s : list string) : bool :=
  existsb (String.eqb x) s.

(** [filter_archs_for_platform], with the value of [platform.machine()]
    as an argument. *)
Definition filter_archs_for_platform (machine : string) (archs : list string)
  : list string :=
  let current_platform := Str.lower machine in
  if negb (mem current_platform ["x86_64"; "amd64"]) then archs
  else filter (fun arch => negb (mem arch igpu_archs)) archs.

(** [re.match(r"^\d+0$", arch)]: at each character either it is the final
    [0], with a digit consumed before it and [$] matching behind it, or it
    is one more digit of [\d+]. *)
Fixpoint match_major (seen_digit : bool) (s : string) : bool :=
  match s with
  | EmptyString => false
  | String c rest =>
      (seen_digit && Ascii.eqb c "0" && at_dollar rest)
      || (Char.is_digit c && match_major true rest)
  end.

Definition re_match_major (arch : string) : bool := match_major false arch.

Definition filter_major_archs (archs : list string) : list string :=
  filter re_match_major archs.

(** ** Validator *)

Definition final_valid_archs_str (platform_filtered_archs : list string)
  : string :=
  let joined := Str.join ", " platform_filtered_archs in
  if String.eqb joined EmptyString then "<None>" else joined.

Definition msg_unsupported (arch valid : string) : string :=
  "Requested architecture '" ++ arch
    ++ "' is not supported by this version of nvcc. "
    ++ "Valid architectures: " ++ valid.

Definition msg_below_min (arch : string) (min_arch_value : option Z)
  (valid : string) : string :=
  "Requested architecture '" ++ arch
    ++ "' does not meet minimum requirement "
    ++ "(sm_" ++ Str.of_optional_int min_arch_value
    ++ "). Valid architectures: " ++ valid.

Definition msg_igpu (arch valid : string) : string :=
  "Requested architecture '" ++ arch
    ++ "' corresponds to an iGPU not supported "
    ++ "on this platform (x86_64). Valid architectures: " ++ valid.

(** The [for arch in user_archs] loop, [validated] being
    [validated_user_archs] so far. *)
Fixpoint validate_loop (user_archs nvcc_supported_archs min_filtered_archs
  platform_filtered_archs : list string) (min_arch_value : option Z)
  (validated : list string) : result (list string) :=
  match user_archs with
  | [] => Ok validated
  | arch :: rest =>
      let valid := final_valid_archs_str platform_filtered_archs in
      if negb (mem arch nvcc_supported_archs) then
        Die (msg_unsupported arch valid)
      else if negb (mem arch min_filtered_archs) then
        Die (msg_below_min arch min_arch_value valid)
      else if negb (mem arch platform_filtered_archs) then
        Die (msg_igpu arch valid)
      else
        validate_loop rest nvcc_supported_archs min_filtered_archs
          platform_filtered_archs min_arch_value (validated ++ [arch])%list
  end.

Definition validate_user_archs (user_archs nvcc_supported_archs
  min_filtered_archs platform_filtered_archs : list string)
  (min_arch_value : option Z) : result (list string) :=
  match user_archs with
  | [] => Die "Requested architecture list is empty."
  | _ =>
      validate_loop user_archs nvcc_supported_archs min_filtered_archs
        platform_filtered_archs min_arch_value []
  end.

(** ** The program *)

(** What the program does to the outside, as a tree: the continuation of
    an action takes what the outside answers. *)
Inductive proc (A : Type) : Type :=
| Return (a : A)
| Emit (text : string) (k : proc A)             (* print(text, end="") *)
| SysExit (code : Z)                            (* sys.exit(code) *)
| Abort (msg : string)                          (* die(msg) *)
| Throw (exn : string)                          (* uncaught exception *)
| Which (name : string) (k : option string -> proc A)   (* shutil.which *)
| Resolve (path : string) (k : string -> proc A)        (* Path.resolve *)
| Run (cmd : list string) (k : run_result -> proc A)    (* subprocess.run *)
| Machine (k : string -> proc A).               (* platform.machine() *)

Arguments Return {A} a.
Arguments Emit {A} text k.
Arguments SysExit {A} code.
Arguments Abort {A} msg.
Arguments Throw {A} exn.
Arguments Which {A} name k.
Arguments Resolve {A} path k.
Arguments Run {A} cmd k.
Arguments Machine {A} k.

Fixpoint bind {A B} (p : proc A) (f : A -> proc B) : proc B :=
  match p with
  | Return a => f a
  | Emit text k => Emit text (bind k f)
  | SysExit code => SysExit code
  | Abort msg => Abort msg
  | Throw exn => Throw exn
  | Which name k => Which name (fun r => bind (k r) f)
  | Resolve path k => Resolve path (fun r => bind (k r) f)
  | Run cmd k => Run cmd (fun r => bind (k r) f)
  | Machine k => Machine (fun r => bind (k r) f)
  end.

Notation "x <- p ;; q" := (bind p (fun x => q))
  (at level 61, p at next level, right associativity).

Definition lift {A} (r : result A) : proc A :=
  match r with
  | Ok a => Return a
  | Die msg => Abort msg
  | Raise exn => Throw exn
  end.

Definition get_nvcc_path : proc string :=
  Which "nvcc" (fun nvcc_path_str =>
    let nvcc_path :=
      match nvcc_path_str with
      | Some p => if nonempty p then p else "/usr/local/cuda/bin/nvcc"
      | None => "/usr/local/cuda/bin/nvcc"
      end in
    Resolve nvcc_path Return).

Definition get_nvcc_archs (nvcc_path : string) : proc (list string) :=
  Run [nvcc_path; "-code-ls"] (fun r => lift (parse_code_ls nvcc_path r)).

(** The command line as [argparse] gives it.  [min_arch] has been made by
    [int] from the option, so it has 4300 digits at most and formatting it
    into a message does not raise. *)
Record args : Type := {
  requested_archs : string;
  nvcc_path : option string;
  min_arch : option Z;
  verbose : bool
}.

Definition truthy (s : option string) : bool :=
  match s with
  | Some p => nonempty p
  | None => false
  end.

(** [main], lines 237 to 256: the toolchain is located and probed and the
    two filters are applied.  [Path.resolve] does not look for the file,
    so the [except FileNotFoundError] around [get_nvcc_path] has nothing to
    catch. *)
Definition main_probe (a : args)
  : proc (list string * list string * list string) :=
  nvcc <- (if truthy (nvcc_path a)
           then Resolve (match nvcc_path a with Some p => p | None => "" end)
                        Return
           else get_nvcc_path) ;;
  nvcc_supported_archs <- get_nvcc_archs nvcc ;;
  min_filtered_archs <-
    lift (filter_archs_with_min_arch nvcc_supported_archs (min_arch a)) ;;
  Machine (fun machine =>
    let platform_filtered_archs :=
      filter_archs_for_platform machine min_filtered_archs in
    Return (nvcc_supported_archs, min_filtered_archs, platform_filtered_archs)).

(** [main], lines 259 to 273: the request is dispatched on its lower-case
    form. *)
Definition main_dispatch (a : args)
  (nvcc_supported_archs min_filtered_archs platform_filtered_archs
     : list string) : result (list string) :=
  let req_lower := Str.lower (requested_archs a) in
  if String.eqb req_lower "all" then Ok platform_filtered_archs
  else if String.eqb req_lower "all-major" then
    Ok (filter_major_archs platform_filtered_archs)
  else
    let user_archs := parse_requested_archs (requested_archs a) in
    validate_user_archs user_archs nvcc_supported_archs min_filtered_archs
      platform_filtered_archs (min_arch a).

Definition msg_no_valid (a : args) (machine : string) : string :=
  "No valid CUDA architectures could be determined for request '"
    ++ requested_archs a
    ++ "' with current filters (min_arch=" ++ Str.of_optional_int (min_arch a)
    ++ ", platform=" ++ machine ++ ").".

(** [main], lines 276 to 289: the empty check, the formatter and the
    output. *)
Definition main_finish (a : args) (target_archs : list string) : proc unit :=
  match target_archs with
  | [] => Machine (fun machine => Abort (msg_no_valid a machine))
  | _ =>
      final_archs_list <- lift (generate_sass_ptx_arch_list target_archs) ;;
      let final_archs_str := Str.join ";" final_archs_list in
      Emit final_archs_str (Return tt)
  end.

Definition main (a : args) : proc unit :=
  let req_lower := Str.lower (requested_archs a) in
  if String.eqb req_lower "native" then Emit "native" (SysExit 0)
  else
    probed <- main_probe a ;;
    let '(nvcc_supported_archs, min_filtered_archs, platform_filtered_archs) :=
      probed in
    target_archs <-
      lift (main_dispatch a nvcc_supported_archs min_filtered_archs
              platform_filtered_archs) ;;
    main_finish a target_archs.

(** ** Running the program *)

(** The outside: what is on the search path, how paths resolve, what a
    command gives, what the machine is. *)
Record world : Type := {
  which : string -> option string;
  resolve : string -> string;
  subprocess_run : list string -> run_result;
  platform_machine : string
}.

Inductive ending : Type :=
| Finished                 (* main returned *)
| Exited (code : Z)        (* sys.exit(code) *)
| Died (msg : string)      (* die(msg) *)
| Crashed (exn : string).  (* uncaught exception *)

Definition exit_code (e : ending) : Z :=
  match e with
  | Finished => 0
  | Exited code => code
  | Died _ => 1
  | Crashed _ => 1
  end.

Record outcome : Type := {
  how : ending;
  stdout : string;
  commands : list (list string)   (* the commands run, in order *)
}.

Fixpoint run_from {A} (w : world) (p : proc A) (out : string)
  (cmds : list (list string)) : outcome :=
  match p with
  | Return _ => {| how := Finished; stdout := out; commands := cmds |}
  | Emit text k => run_from w k (out ++ text) cmds
  | SysExit code => {| how := Exited code; stdout := out; commands := cmds |}
  | Abort msg => {| how := Died msg; stdout := out; commands := cmds |}
  | Throw exn => {| how := Crashed exn; stdout := out; commands := cmds |}
  | Which name k => run_from w (k (which w name)) out cmds
  | Resolve path k => run_from w (k (resolve w path)) out cmds
  | Run cmd k => run_from w (k (subprocess_run w cmd)) out (cmds ++ [cmd])%list
  | Machine k => run_from w (k (platform_machine w)) out cmds
  end.

Definition run {A} (w : world) (p : proc A) : outcome := run_from w p "" [].

(** ** What a run comes to *)

(** The path handed to [get_nvcc_archs]. *)
Definition located_nvcc (w : world) (a : args) : string :=
  if truthy (nvcc_path a)
  then resolve w (match nvcc_path a with Some p => p | None => "" end)
  else resolve w (match which w "nvcc" with
                  | Some p => if nonempty p then p else "/usr/local/cuda/bin/nvcc"
                  | None => "/usr/local/cuda/bin/nvcc"
                  end).

(** The three lists [main] holds after line 256. *)
Definition probed (w : world) (a : args)
  : result (list string * list string * list string) :=
  let nvcc := located_nvcc w a in
  rbind (parse_code_ls nvcc (subprocess_run w [nvcc; "-code-ls"]))
    (fun nvcc_supported_archs =>
  rbind (filter_archs_with_min_arch nvcc_supported_archs (min_arch a))
    (fun min_filtered_archs =>
  Ok (nvcc_supported_archs, min_filtered_archs,
      filter_archs_for_platform (platform_machine w) min_filtered_archs))).

(** The target list [main] holds after line 273. *)
Definition dispatched (w : world) (a : args) : result (list string) :=
  rbind (probed w a) (fun '(nvcc_supported_archs, min_filtered_archs,
                             platform_filtered_archs) =>
    main_dispatch a nvcc_supported_archs min_filtered_archs
      platform_filtered_archs).

(** What is printed, or how the run fails. *)
Definition printed (w : world) (a : args) : result string :=
  rbind (dispatched w a) (fun target_archs =>
    match target_archs with
    | [] => Die (msg_no_valid a (platform_machine w))
    | _ =>
        rbind (generate_sass_ptx_arch_list target_archs) (fun final_archs_list =>
          Ok (Str.join ";" final_archs_list))
    end).

Definition outcome_of (r : result string) (cmds : list (list string))
  : outcome :=
  match r with
  | Ok text => {| how := Finished; stdout := text; commands := cmds |}
  | Die msg => {| how := Died msg; stdout := ""; commands := cmds |}
  | Raise exn => {| how := Crashed exn; stdout := ""; commands := cmds |}
  end.

(** ** Notions used in the statements *)

(** The number the leading digits of a token write, 0 without leading
    digit. *)
Definition num (arch : string) : Z :=
  match re_match_digits arch with
  | None => 0
  | Some d => Str.digits_value d
  end.

(** The count of leading digits of a token is within what [int] takes. *)
Definition fits (arch : string) : Prop :=
  (N.of_nat (String.length (Str.take_while Char.is_digit arch))
   <= Str.int_max_str_digits)%N.

(** The canonical order on tokens: by number first, by string second. *)
Definition arch_ltb (a b : string) : bool := key_ltb (num a, a) (num b, b).

(** [arch_le a b]: [b] is not in front of [a] in the canonical order. *)
Definition arch_le (a b : string) : Prop := arch_ltb b a = false.

(** The stable insertion sort of tokens in the canonical order. *)
Fixpoint insert_arch (x : string) (l : list string) : list string :=
  match l with
  | [] => [x]
  | y :: l' => if arch_ltb y x then y :: insert_arch x l' else x :: l
  end.

Fixpoint in_order (archs : list string) : list string :=
  match archs with
  | [] => []
  | x :: l => insert_arch x (in_order l)
  end.

(** A token with the key it is sorted by. *)
Definition decorate (arch : string) : (Z * string) * string :=
  ((num arch, arch), arch).

(** A token carries a trailing letter suffix: it ends in a letter, or in
    a letter and one line feed behind it. *)
Definition letter_suffixed (arch : string) : Prop :=
  exists front c,
    Char.is_letter c = true /\
    (arch = front ++ String c "" \/ arch = front ++ String c (String Char.LF "")).

(** [n] times the character [c]. *)
Fixpoint repeat_char (c : ascii) (n : nat) : string :=
  match n with
  | O => EmptyString
  | S n' => String c (repeat_char c n')
  end.

(** The machine is of the desktop x86 family. *)
Definition desktop_x86 (machine : string) : Prop :=
  Str.lower machine = "x86_64" \/ Str.lower machine = "amd64".

(** The tokens [r"^\d+0$"] matches: one digit or more, then a [0], then the
    end of the token, or a line feed and the end. *)
Definition major_form (arch : string) : Prop :=
  exists d tail,
    d <> "" /\ Str.forallb Char.is_digit d = true /\
    (tail = "" \/ tail = String Char.LF "") /\
    arch = d ++ String "0" tail.

(** A token that is numeric throughout and ends in a literal [0], in the
    words of the specification. *)
Definition numeric_ending_in_0 (arch : string) : bool :=
  Str.forallb Char.is_digit arch && Str.endswith "0" arch.

(** The form [<digits><optional letter>] of an architecture identifier:
    one digit or more, then nothing or one letter. *)
Fixpoint id_tail (s : string) : bool :=
  match s with
  | EmptyString => true
  | String c rest =>
      (Char.is_digit c && id_tail rest)
      || (Char.is_letter c && String.eqb rest "")
  end.

Definition is_arch_id (arch : string) : bool :=
  match arch with
  | EmptyString => false
  | String c rest => Char.is_digit c && id_tail rest
  end.

(** A token is in all three reference lists. *)
Definition passes (nvcc_supported_archs min_filtered_archs
  platform_filtered_archs : list string) (arch : string) : Prop :=
  In arch nvcc_supported_archs /\ In arch min_filtered_archs
  /\ In arch platform_filtered_archs.

(** The first check a token fails, with the message of that check. *)
Definition rejected (nvcc_supported_archs min_filtered_archs
  platform_filtered_archs : list string) (min_arch_value : option Z)
  (arch msg : string) : Prop :=
  let valid := final_valid_archs_str platform_filtered_archs in
  (~ In arch nvcc_supported_archs /\ msg = msg_unsupported arch valid)
  \/ (In arch nvcc_supported_archs /\ ~ In arch min_filtered_archs
       /\ msg = msg_below_min arch min_arch_value valid)
  \/ (In arch nvcc_supported_archs /\ In arch min_filtered_archs
       /\ ~ In arch platform_filtered_archs /\ msg = msg_igpu arch valid).

(** [t] occurs in [s] as it is. *)
Definition substring_of (t s : string) : Prop :=
  exists before after, s = before ++ t ++ after.

(** ** Requests and outsides used in the statements *)

Definition with_request (a : args) (req : string) : args :=
  {| requested_archs := req; nvcc_path := nvcc_path a;
     min_arch := min_arch a; verbose := verbose a |}.

(** Two runs print the same, end with the same exit code and run the same
    commands. *)
Definition same_behaviour (o1 o2 : outcome) : Prop :=
  stdout o1 = stdout o2 /\ exit_code (how o1) = exit_code (how o2)
  /\ commands o1 = commands o2.

(** Worlds for the examples: one without toolchain, and one whose
    toolchain lists the given lines. *)
Definition no_toolchain (machine : string) : world :=
  {| which := fun _ => None;
     resolve := fun path => path;
     subprocess_run := fun _ => FileNotFoundError;
     platform_machine := machine |}.

Definition toolchain_listing (listing machine : string) : world :=
  {| which := fun _ => Some "/usr/local/cuda/bin/nvcc";
     resolve := fun path => path;
     subprocess_run := fun _ => Completed listing;
     platform_machine := machine |}.

Definition request (req : string) (min : option Z) : args :=
  {| requested_archs := req; nvcc_path := None; min_arch := min;
     verbose := false |}.

(** Every token of a list written out has few enough leading digits. *)
Ltac all_fit :=
  let a := fresh "a" in
  let H := fresh "H" in
  intros a H; simpl in H;
  repeat (destruct H as [<-|H]; [vm_compute; discriminate|]);
  contradiction.

(** * Properties *)

(** ** The canonical ordering is a total order *)

Section StringOrder.

Lemma ascii_compare_refl c : Ascii.compare c c = Eq.
Proof. unfold Ascii.compare. apply N.compare_refl. Qed.

Lemma ascii_compare_lt_trans a b c :
  Ascii.compare a b = Lt -> Ascii.compare b c = Lt -> Ascii.compare a c = Lt.
Proof.
  unfold Ascii.compare. rewrite !N.compare_lt_iff. lia.
Qed.

Lemma string_compare_refl s : String.compare s s = Eq.
Proof.
  induction s as [|c s IH]; simpl; [reflexivity|].
  now rewrite ascii_compare_refl.
Qed.

Lemma string_compare_lt_trans s1 : forall s2 s3,
  String.compare s1 s2 = Lt -> String.compare s2 s3 = Lt ->
  String.compare s1 s3 = Lt.
Proof.
  induction s1 as [|a s1 IH]; intros [|b s2] [|c s3]; simpl;
    try discriminate; auto.
  destruct (Ascii.compare a b) eqn:Hab; try discriminate;
    destruct (Ascii.compare b c) eqn:Hbc; try discriminate; intros H1 H2.
  - apply Ascii.compare_eq_iff in Hab, Hbc. subst.
    rewrite ascii_compare_refl. eauto.
  - apply Ascii.compare_eq_iff in Hab. subst. now rewrite Hbc.
  - apply Ascii.compare_eq_iff in Hbc. subst. now rewrite Hab.
  - now rewrite (ascii_compare_lt_trans _ _ _ Hab Hbc).
Qed.

Lemma string_ltb_irrefl s : String.ltb s s = false.
Proof. unfold String.ltb. now rewrite string_compare_refl. Qed.

Lemma string_ltb_trans s1 s2 s3 :
  String.ltb s1 s2 = true -> String.ltb s2 s3 = true ->
  String.ltb s1 s3 = true.
Proof.
  unfold String.ltb.
  destruct (String.compare s1 s2) eqn:H12; try discriminate.
  destruct (String.compare s2 s3) eqn:H23; try discriminate.
  now rewrite (string_compare_lt_trans _ _ _ H12 H23).
Qed.

Lemma string_ltb_asym s1 s2 :
  String.ltb s1 s2 = true -> String.ltb s2 s1 = false.
Proof.
  unfold String.ltb. rewrite (String.compare_antisym s2 s1).
  destruct (String.compare s1 s2); simpl; congruence.
Qed.

Lemma string_ltb_connected s1 s2 :
  String.ltb s1 s2 = false -> String.ltb s2 s1 = false -> s1 = s2.
Proof.
  unfold String.ltb. rewrite (String.compare_antisym s2 s1).
  destruct (String.compare s1 s2) eqn:H; simpl; try discriminate.
  intros _ _. now apply String.compare_eq_iff.
Qed.

Lemma string_ltb_empty s : s <> EmptyString -> String.ltb EmptyString s = true.
Proof. destruct s; [congruence | reflexivity]. Qed.

End StringOrder.

Lemma arch_ltb_spec a b :
  arch_ltb a b = true <->
  num a < num b \/ (num a = num b /\ String.ltb a b = true).
Proof.
  unfold arch_ltb, key_ltb. cbn [fst snd].
  rewrite orb_true_iff, andb_true_iff, Z.ltb_lt, Z.eqb_eq. tauto.
Qed.

Lemma arch_ltb_false a b :
  arch_ltb a b = false <->
  num b < num a \/ (num a = num b /\ String.ltb a b = false).
Proof.
  destruct (arch_ltb a b) eqn:H.
  - apply arch_ltb_spec in H. split; [discriminate|].
    intros [?|[? ?]]; destruct H as [?|[? ?]]; try lia; congruence.
  - split; [intros _|reflexivity].
    destruct (Z.lt_trichotomy (num a) (num b)) as [Hlt|[Heq|Hgt]].
    + assert (arch_ltb a b = true) by (apply arch_ltb_spec; auto). congruence.
    + right. split; [assumption|].
      destruct (String.ltb a b) eqn:Hs; [|reflexivity].
      assert (arch_ltb a b = true) by (apply arch_ltb_spec; auto). congruence.
    + now left.
Qed.

Lemma arch_ltb_irrefl a : arch_ltb a a = false.
Proof. apply arch_ltb_false. right. split; [reflexivity|apply string_ltb_irrefl]. Qed.

Lemma arch_ltb_asym a b : arch_ltb a b = true -> arch_ltb b a = false.
Proof.
  rewrite arch_ltb_spec, arch_ltb_false. intros [H|[H1 H2]]; [now left|].
  right. split; [congruence|now apply string_ltb_asym].
Qed.

Lemma arch_ltb_trans a b c :
  arch_ltb a b = true -> arch_ltb b c = true -> arch_ltb a c = true.
Proof.
  rewrite !arch_ltb_spec.
  intros [H1|[H1 H1']] [H2|[H2 H2']]; try (left; lia).
  right. split; [congruence|]. eapply string_ltb_trans; eauto.
Qed.

Lemma arch_le_refl a : arch_le a a.
Proof. apply arch_ltb_irrefl. Qed.

Lemma arch_le_antisym a b : arch_le a b -> arch_le b a -> a = b.
Proof.
  unfold arch_le. rewrite !arch_ltb_false.
  intros [H1|[H1 H1']] [H2|[H2 H2']]; try lia.
  now apply string_ltb_connected.
Qed.

Lemma arch_le_trans a b c : arch_le a b -> arch_le b c -> arch_le a c.
Proof.
  unfold arch_le. intros Hba Hcb.
  destruct (arch_ltb c a) eqn:Hca; [|reflexivity].
  destruct (arch_ltb a b) eqn:Hab.
  - pose proof (arch_ltb_trans _ _ _ Hca Hab). congruence.
  - pose proof (arch_le_antisym a b Hba Hab). subst. congruence.
Qed.

Lemma arch_le_total a b : arch_le a b \/ arch_le b a.
Proof.
  unfold arch_le. destruct (arch_ltb b a) eqn:H; [|now left].
  right. now apply arch_ltb_asym.
Qed.

Lemma arch_le_num a b : arch_le a b -> num a <= num b.
Proof. unfold arch_le. rewrite arch_ltb_false. lia. Qed.

(** ** The sort *)

Lemma insert_arch_perm x l : Permutation (insert_arch x l) (x :: l).
Proof.
  induction l as [|y l IH]; simpl; [reflexivity|].
  destruct (arch_ltb y x); [|reflexivity].
  rewrite IH. apply perm_swap.
Qed.

Lemma in_order_perm l : Permutation (in_order l) l.
Proof.
  induction l as [|x l IH]; simpl; [reflexivity|].
  rewrite insert_arch_perm. now constructor.
Qed.

Lemma in_order_In l a : In a (in_order l) <-> In a l.
Proof.
  split; apply Permutation_in; [|symmetry]; apply in_order_perm.
Qed.

Lemma in_order_nonempty l : l <> [] -> in_order l <> [].
Proof.
  intros Hl Hs. apply Hl. apply Permutation_nil.
  rewrite <- Hs. apply in_order_perm.
Qed.

Lemma insert_arch_sorted x l :
  StronglySorted arch_le l -> StronglySorted arch_le (insert_arch x l).
Proof.
  induction 1 as [|y l Hs IH Hy]; simpl.
  - repeat constructor.
  - destruct (arch_ltb y x) eqn:Hyx.
    + constructor; [assumption|].
      rewrite Forall_forall in *. intros z Hz.
      apply (Permutation_in _ (insert_arch_perm x l)) in Hz.
      destruct Hz as [<-|Hz]; [now apply arch_ltb_asym | auto].
    + constructor; [now constructor|].
      constructor; [exact Hyx|].
      rewrite Forall_forall in *. intros z Hz.
      apply arch_le_trans with y; [exact Hyx | auto].
Qed.

Lemma in_order_sorted l : StronglySorted arch_le (in_order l).
Proof.
  induction l; simpl; [constructor | now apply insert_arch_sorted].
Qed.

(** A list already in canonical order is left as it is. *)
Lemma in_order_id l : Sorted arch_le l -> in_order l = l.
Proof.
  induction 1 as [|x l Hs IH Hx]; simpl; [reflexivity|].
  rewrite IH. destruct Hx as [|y l Hxy]; simpl; [reflexivity|].
  unfold arch_le in Hxy. now rewrite Hxy.
Qed.

(** Two lists in canonical order with the same elements are equal: the
    result of the sort does not depend on the order in which a set hands
    out its elements. *)
Lemma in_order_unique l1 : forall l2,
  StronglySorted arch_le l1 -> StronglySorted arch_le l2 ->
  Permutation l1 l2 -> l1 = l2.
Proof.
  induction l1 as [|x l1 IH]; intros l2 H1 H2 HP.
  - now apply Permutation_nil in HP.
  - destruct l2 as [|y l2].
    + symmetry in HP. now apply Permutation_nil in HP.
    + inversion H1 as [|? ? Hs1 Hx]; inversion H2 as [|? ? Hs2 Hy]; subst.
      rewrite Forall_forall in Hx, Hy.
      assert (x = y) as ->.
      { assert (In x (y :: l2)) as [->|Hi] by
            (apply (Permutation_in _ HP); now left); [reflexivity|].
        assert (In y (x :: l1)) as [->|Hj] by
            (apply (Permutation_in _ (Permutation_sym HP)); now left);
          [reflexivity|].
        apply arch_le_antisym; auto. }
      f_equal. apply IH; auto. now apply Permutation_cons_inv in HP.
Qed.

Lemma in_order_order_independent l1 l2 :
  Permutation l1 l2 -> in_order l1 = in_order l2.
Proof.
  intros HP. apply in_order_unique; try apply in_order_sorted.
  rewrite !in_order_perm. exact HP.
Qed.

Lemma last_In (l : list string) d : l <> [] -> In (last l d) l.
Proof.
  induction l as [|x [|y l] IH]; intros H; [congruence|now left|].
  right. apply IH. discriminate.
Qed.

Lemma in_order_last_max l d a :
  StronglySorted arch_le l -> In a l -> arch_le a (last l d).
Proof.
  induction 1 as [|x l Hs IH Hx]; intros Ha; [contradiction|].
  destruct l as [|y l].
  - destruct Ha as [<-|[]]. apply arch_le_refl.
  - change (last (x :: y :: l) d) with (last (y :: l) d).
    destruct Ha as [<-|Ha]; [|now apply IH].
    rewrite Forall_forall in Hx. apply Hx, last_In. discriminate.
Qed.

(** ** Strings: append, reversal, suffixes *)

Lemma append_nil_r s : s ++ "" = s.
Proof. induction s; simpl; congruence. Qed.

Lemma append_assoc s1 s2 s3 : (s1 ++ s2) ++ s3 = s1 ++ (s2 ++ s3).
Proof. induction s1; simpl; congruence. Qed.

Lemma rev_onto_app a : forall b acc,
  Str.rev_onto (a ++ b) acc = Str.rev_onto b (Str.rev_onto a acc).
Proof. induction a as [|c a IH]; simpl; intros; [reflexivity|apply IH]. Qed.

Lemma rev_onto_rev_onto a : forall acc acc',
  Str.rev_onto (Str.rev_onto a acc) acc' = Str.rev_onto acc (a ++ acc').
Proof.
  induction a as [|c a IH]; simpl; intros; [reflexivity|].
  now rewrite IH.
Qed.

Lemma rev_involutive s : Str.rev (Str.rev s) = s.
Proof.
  unfold Str.rev. rewrite rev_onto_rev_onto. simpl. apply append_nil_r.
Qed.

Lemma rev_inj a b : Str.rev a = Str.rev b -> a = b.
Proof.
  intros H. rewrite <- (rev_involutive a), <- (rev_involutive b). now f_equal.
Qed.

Lemma rev_onto_inj s : forall a b,
  Str.rev_onto s a = Str.rev_onto s b -> a = b.
Proof.
  induction s as [|c s IH]; simpl; intros a b H; [assumption|].
  apply IH in H. congruence.
Qed.

Lemma append_inj_l s a b : a ++ s = b ++ s -> a = b.
Proof.
  intros H. apply (f_equal Str.rev) in H. unfold Str.rev in H.
  rewrite !rev_onto_app in H. apply rev_onto_inj in H. now apply rev_inj.
Qed.

Lemma append_inj_r s : forall a b, s ++ a = s ++ b -> a = b.
Proof.
  induction s as [|c s IH]; simpl; intros a b H; [assumption|].
  injection H. auto.
Qed.

Lemma real_inj a b : real a = real b -> a = b.
Proof. apply append_inj_l. Qed.

Lemma real_endswith_real a : Str.endswith "-real" (real a) = true.
Proof.
  unfold Str.endswith, real, Str.rev. now rewrite rev_onto_app.
Qed.

Lemma virtual_endswith_virtual a : Str.endswith "-virtual" (virtual a) = true.
Proof.
  unfold Str.endswith, virtual, Str.rev. now rewrite rev_onto_app.
Qed.

Lemma real_endswith_virtual a : Str.endswith "-virtual" (real a) = false.
Proof.
  unfold Str.endswith, real, Str.rev. now rewrite rev_onto_app.
Qed.

Lemma virtual_endswith_real a : Str.endswith "-real" (virtual a) = false.
Proof.
  unfold Str.endswith, virtual, Str.rev. now rewrite rev_onto_app.
Qed.

Lemma real_neq_virtual a b : real a <> virtual b.
Proof.
  intros H. pose proof (real_endswith_virtual a) as H1.
  rewrite H, virtual_endswith_virtual in H1. discriminate.
Qed.

(** ** Numeric prefixes *)

Lemma digit_value_range c :
  Char.is_digit c = true -> 0 <= Char.digit_value c <= 9.
Proof.
  unfold Char.is_digit, Char.in_range, Char.digit_value.
  rewrite andb_true_iff, !N.leb_le. lia.
Qed.

Lemma take_while_forallb p s : Str.forallb p (Str.take_while p s) = true.
Proof.
  induction s as [|c s IH]; simpl; [reflexivity|].
  destruct (p c) eqn:Hc; simpl; [now rewrite Hc|reflexivity].
Qed.

Lemma fold_digits_nonneg d : forall acc,
  0 <= acc -> Str.forallb Char.is_digit d = true ->
  0 <= fold_left (fun acc c => 10 * acc + Char.digit_value c)
         (list_ascii_of_string d) acc.
Proof.
  induction d as [|c d IH];
    cbn [fold_left list_ascii_of_string Str.forallb];
    intros acc Hacc Hd; [assumption|].
  apply andb_true_iff in Hd as [Hc Hd].
  apply IH; [|assumption]. pose proof (digit_value_range c Hc). lia.
Qed.

Lemma digits_value_nonneg d :
  Str.forallb Char.is_digit d = true -> 0 <= Str.digits_value d.
Proof.
  intros H. unfold Str.digits_value.
  apply fold_digits_nonneg; [reflexivity|exact H].
Qed.

Lemma num_nonneg arch : 0 <= num arch.
Proof.
  unfold num, re_match_digits.
  pose proof (take_while_forallb Char.is_digit arch) as H.
  destruct (Str.take_while Char.is_digit arch); [lia|].
  now apply digits_value_nonneg.
Qed.

Lemma num_empty : num "" = 0.
Proof. reflexivity. Qed.

(** The empty token is in front of every other one. *)
Lemma empty_lt arch : arch <> "" -> arch_ltb "" arch = true.
Proof.
  intros H. apply arch_ltb_spec. rewrite num_empty.
  pose proof (num_nonneg arch).
  destruct (Z.eq_dec (num arch) 0) as [E|E]; [right|left; lia].
  split; [now rewrite E | now apply string_ltb_empty].
Qed.

(** ** The sort of the code and the canonical order *)

Lemma re_match_digits_spec arch :
  re_match_digits arch
  = if String.eqb (Str.take_while Char.is_digit arch) ""
    then None else Some (Str.take_while Char.is_digit arch).
Proof.
  unfold re_match_digits. now destruct (Str.take_while Char.is_digit arch).
Qed.

Lemma fits_dec arch : {fits arch} + {~ fits arch}.
Proof.
  unfold fits.
  destruct (N.leb_spec0
              (N.of_nat (String.length (Str.take_while Char.is_digit arch)))
              Str.int_max_str_digits); [left|right]; assumption.
Qed.

Lemma get_arch_sort_key_fits arch :
  fits arch -> get_arch_sort_key arch = Ok (num arch, arch).
Proof.
  unfold fits, get_arch_sort_key, num, re_match_digits, Str.int_of_digits.
  intros H.
  destruct (Str.take_while Char.is_digit arch) as [|c d] eqn:E;
    [reflexivity|].
  apply N.ltb_ge in H. rewrite H. reflexivity.
Qed.

Lemma get_arch_sort_key_too_long arch :
  ~ fits arch -> get_arch_sort_key arch = Raise "ValueError".
Proof.
  unfold fits, get_arch_sort_key, re_match_digits, Str.int_of_digits.
  intros H. apply N.nle_gt in H.
  destruct (Str.take_while Char.is_digit arch) as [|c d] eqn:E.
  - simpl in H. unfold Str.int_max_str_digits in H. lia.
  - apply N.ltb_lt in H. rewrite H. reflexivity.
Qed.

Lemma get_arch_sort_key_ok arch key :
  get_arch_sort_key arch = Ok key -> fits arch /\ key = (num arch, arch).
Proof.
  destruct (fits_dec arch) as [H|H].
  - rewrite (get_arch_sort_key_fits arch H). intros E. injection E as <-. auto.
  - rewrite (get_arch_sort_key_too_long arch H). discriminate.
Qed.

Lemma keyed_fits archs :
  Forall fits archs -> keyed archs = Ok (map decorate archs).
Proof.
  induction 1 as [|a archs Ha _ IH]; cbn [keyed map]; [reflexivity|].
  rewrite (get_arch_sort_key_fits a Ha), IH. reflexivity.
Qed.

Lemma keyed_too_long archs :
  Exists (fun a => ~ fits a) archs -> keyed archs = Raise "ValueError".
Proof.
  induction archs as [|a archs IH]; intros H; [inversion H|].
  cbn [keyed]. destruct (fits_dec a) as [Ha|Ha].
  - rewrite (get_arch_sort_key_fits a Ha). cbn [rbind].
    rewrite IH; [reflexivity|]. inversion H; [contradiction|assumption].
  - now rewrite (get_arch_sort_key_too_long a Ha).
Qed.

Lemma fits_all_or_not archs :
  Forall fits archs \/ Exists (fun a => ~ fits a) archs.
Proof.
  induction archs as [|a archs [IH|IH]]; [left; constructor| |].
  - destruct (fits_dec a); [left|right]; now constructor.
  - right. now constructor.
Qed.

Lemma insert_keyed_decorate x l :
  insert_keyed (decorate x) (map decorate l)
  = map decorate (insert_arch x l).
Proof.
  induction l as [|y l IH]; cbn [map insert_keyed insert_arch];
    [reflexivity|].
  change (key_ltb (fst (decorate y)) (fst (decorate x))) with (arch_ltb y x).
  destruct (arch_ltb y x); cbn [map]; [now rewrite IH|reflexivity].
Qed.

Lemma sort_keyed_decorate l :
  sort_keyed (map decorate l) = map decorate (in_order l).
Proof.
  induction l as [|x l IH]; cbn [map sort_keyed in_order]; [reflexivity|].
  now rewrite IH, insert_keyed_decorate.
Qed.

(** When every token fits, the sort of the code is the insertion sort in
    the canonical order; else it raises. *)
Lemma sorted_fits archs :
  Forall fits archs -> sorted archs = Ok (in_order archs).
Proof.
  intros H. unfold sorted. rewrite (keyed_fits archs H). cbn [rbind].
  rewrite sort_keyed_decorate, map_map. cbn [decorate snd].
  now rewrite map_id.
Qed.

Lemma sorted_too_long archs :
  Exists (fun a => ~ fits a) archs -> sorted archs = Raise "ValueError".
Proof. intros H. unfold sorted. now rewrite (keyed_too_long archs H). Qed.

Lemma sorted_ok archs l :
  sorted archs = Ok l -> Forall fits archs /\ l = in_order archs.
Proof.
  destruct (fits_all_or_not archs) as [H|H].
  - rewrite (sorted_fits archs H). intros E. injection E as <-. auto.
  - rewrite (sorted_too_long archs H). discriminate.
Qed.

Lemma sorted_never_dies archs msg : sorted archs <> Die msg.
Proof.
  destruct (fits_all_or_not archs) as [H|H].
  - rewrite (sorted_fits archs H). discriminate.
  - rewrite (sorted_too_long archs H). discriminate.
Qed.

(** ** The virtual base *)

Lemma StronglySorted_snoc (R : string -> string -> Prop) l x :
  StronglySorted R (l ++ [x])%list ->
  StronglySorted R l /\ Forall (fun a => R a x) l.
Proof.
  induction l as [|y l IH]; simpl; intros H; [split; constructor|].
  inversion H as [|? ? Hs Hy]; subst.
  destruct (IH Hs) as [IH1 IH2]. rewrite Forall_forall in Hy.
  split; constructor; auto.
  - rewrite Forall_forall. intros z Hz. apply Hy, in_or_app. now left.
  - apply Hy, in_or_app. right. now left.
Qed.

Lemma first_unsuffixed_all_suffixed r :
  (forall a, In a r -> re_search_letter_end a = true) ->
  first_unsuffixed r = "".
Proof.
  induction r as [|x r IH]; simpl; intros H; [reflexivity|].
  rewrite (H x) by now left. simpl. apply IH. auto.
Qed.

(** On a list in canonical order the loop stops at the last token without
    letter suffix, which is the greatest of them. *)
Lemma first_unsuffixed_sorted l :
  StronglySorted arch_le l ->
  forall a, In a l -> re_search_letter_end a = false ->
    let b := first_unsuffixed (rev l) in
    In b l /\ re_search_letter_end b = false /\ arch_le a b.
Proof.
  induction l as [|x l IH] using rev_ind; intros Hs a Ha Hsuf;
    [contradiction|].
  apply StronglySorted_snoc in Hs as [Hs Hx]. rewrite Forall_forall in Hx.
  rewrite rev_unit. simpl.
  destruct (re_search_letter_end x) eqn:Hxs; simpl.
  - apply in_app_or in Ha as [Ha|[<-|[]]]; [|congruence].
    destruct (IH Hs a Ha Hsuf) as (H1 & H2 & H3).
    repeat split; auto. apply in_or_app. now left.
  - repeat split; auto.
    + apply in_or_app. right. now left.
    + apply in_app_or in Ha as [Ha|[<-|[]]]; [auto|apply arch_le_refl].
Qed.

Lemma ptx_target_base_unsuffixed l a :
  StronglySorted arch_le l ->
  In a l -> a <> "" -> re_search_letter_end a = false ->
  let b := ptx_target_base l in
  In b l /\ re_search_letter_end b = false /\
  forall a', In a' l -> re_search_letter_end a' = false -> arch_le a' b.
Proof.
  intros Hs Ha Hne Hsuf. unfold ptx_target_base.
  destruct (first_unsuffixed_sorted l Hs a Ha Hsuf) as (H1 & H2 & H3).
  destruct (String.eqb_spec (first_unsuffixed (rev l)) "") as [E|E].
  - rewrite E in H3. unfold arch_le in H3.
    rewrite (empty_lt a Hne) in H3. discriminate.
  - simpl. repeat split; auto.
    intros a' Ha' Hsuf'. now apply (first_unsuffixed_sorted l Hs a' Ha' Hsuf').
Qed.

Lemma ptx_target_base_all_suffixed l :
  StronglySorted arch_le l -> l <> [] ->
  (forall a, In a l -> re_search_letter_end a = true) ->
  let b := ptx_target_base l in
  b = last l "" /\ In b l /\ forall a, In a l -> arch_le a b.
Proof.
  intros Hs Hne Hall. unfold ptx_target_base.
  rewrite first_unsuffixed_all_suffixed
    by (intros a Ha; apply Hall; now apply in_rev).
  simpl. repeat split; [now apply last_In|].
  intros a Ha. now apply in_order_last_max.
Qed.

Lemma first_unsuffixed_In r :
  first_unsuffixed r = "" \/ In (first_unsuffixed r) r.
Proof.
  induction r as [|x r IH]; simpl; [now left|].
  destruct (re_search_letter_end x); simpl; [|right; now left].
  destruct IH; [now left|right; now right].
Qed.

Lemma ptx_target_base_In l : l <> [] -> In (ptx_target_base l) l.
Proof.
  intros Hne. unfold ptx_target_base.
  destruct (String.eqb_spec (first_unsuffixed (rev l)) "") as [E|E].
  - now apply last_In.
  - destruct (first_unsuffixed_In (rev l)) as [H|H]; [contradiction|].
    now apply in_rev.
Qed.

(** What [$] accepts behind the last character of a match. *)
Lemma at_dollar_spec rest :
  at_dollar rest = true <-> rest = "" \/ rest = String Char.LF "".
Proof.
  destruct rest as [|c [|d rest]]; simpl.
  - intuition.
  - rewrite Ascii.eqb_eq. intuition congruence.
  - intuition discriminate.
Qed.

Lemma generate_nonempty l :
  l <> [] -> Forall fits l ->
  generate_sass_ptx_arch_list l
  = Ok (map real (in_order l) ++ [virtual (ptx_target_base (in_order l))])%list.
Proof.
  intros Hne Hfit. unfold generate_sass_ptx_arch_list.
  rewrite (sorted_fits l Hfit). destruct l; [congruence|reflexivity].
Qed.

Lemma generate_too_long l :
  l <> [] -> Exists (fun a => ~ fits a) l ->
  generate_sass_ptx_arch_list l = Raise "ValueError".
Proof.
  intros Hne Hlong. unfold generate_sass_ptx_arch_list.
  rewrite (sorted_too_long l Hlong). destruct l; [congruence|reflexivity].
Qed.

Lemma Forall_fits l : (forall a, In a l -> fits a) <-> Forall fits l.
Proof. symmetry. apply Forall_forall. Qed.

Lemma Exists_not_fits l :
  (exists a, In a l /\ ~ fits a) <-> Exists (fun a => ~ fits a) l.
Proof. symmetry. apply Exists_exists. Qed.

(** The search [[a-zA-Z]$] finds a letter exactly in the tokens with a
    trailing letter suffix. *)
Lemma re_search_letter_end_spec arch :
  re_search_letter_end arch = true <-> letter_suffixed arch.
Proof.
  unfold letter_suffixed. induction arch as [|c rest IH]; simpl.
  - split; [discriminate|].
    intros ([|? ?] & d & _ & [E|E]); discriminate E.
  - rewrite orb_true_iff, andb_true_iff, IH, at_dollar_spec. split.
    + intros [[Hc [-> | ->]]|(front & d & Hd & [-> | ->])].
      * exists "", c. auto.
      * exists "", c. auto.
      * exists (String c front), d. auto.
      * exists (String c front), d. auto.
    + intros ([|c' front] & d & Hd & E).
      * left. destruct E as [E|E]; injection E as -> ->; auto.
      * right. exists front, d. split; [assumption|].
        destruct E as [E|E]; injection E as -> ->; auto.
Qed.

Lemma not_letter_suffixed arch :
  re_search_letter_end arch = false <-> ~ letter_suffixed arch.
Proof.
  rewrite <- re_search_letter_end_spec.
  destruct (re_search_letter_end arch); split; congruence.
Qed.

Lemma first_unsuffixed_suffixed_or_empty r :
  (forall a, In a r -> re_search_letter_end a = true \/ a = "") ->
  first_unsuffixed r = "".
Proof.
  induction r as [|x r IH]; simpl; intros H; [reflexivity|].
  destruct (re_search_letter_end x) eqn:E; simpl.
  - apply IH. auto.
  - destruct (H x (or_introl eq_refl)) as [H'|H']; congruence.
Qed.

Lemma ptx_target_base_fallback l :
  StronglySorted arch_le l -> l <> [] ->
  (forall a, In a l -> re_search_letter_end a = true \/ a = "") ->
  let b := ptx_target_base l in
  b = last l "" /\ In b l /\ forall a, In a l -> arch_le a b.
Proof.
  intros Hs Hne Hall. unfold ptx_target_base.
  rewrite first_unsuffixed_suffixed_or_empty
    by (intros a Ha; apply Hall; now apply in_rev).
  simpl. repeat split; [now apply last_In|].
  intros a Ha. now apply in_order_last_max.
Qed.

(** On a token without line feed the search for a letter in front of
    [$] looks at the last character. *)
Lemma re_search_letter_end_last p : forall c,
  c <> Char.LF ->
  re_search_letter_end (p ++ String c "") = Char.is_letter c.
Proof.
  induction p as [|d p IH]; intros c Hc; simpl.
  - now rewrite andb_true_r, orb_false_r.
  - rewrite IH by assumption.
    assert (at_dollar (p ++ String c "") = false) as ->.
    { destruct p as [|e [|f p]]; simpl; try reflexivity.
      now apply Ascii.eqb_neq. }
    now rewrite andb_false_r.
Qed.

(** ** The formatter's output *)

Lemma filter_real_entries l b :
  filter (Str.endswith "-real") (map real l ++ [virtual b])%list = map real l.
Proof.
  induction l as [|x l IH]; simpl.
  - now rewrite virtual_endswith_real.
  - rewrite real_endswith_real. now f_equal.
Qed.

Lemma filter_virtual_entries l b :
  filter (Str.endswith "-virtual") (map real l ++ [virtual b])%list
  = [virtual b].
Proof.
  induction l as [|x l IH]; simpl.
  - now rewrite virtual_endswith_virtual.
  - now rewrite real_endswith_virtual.
Qed.

Lemma count_occ_real l b a :
  count_occ string_dec (map real l ++ [virtual b])%list (real a)
  = count_occ string_dec l a.
Proof.
  rewrite count_occ_app. simpl.
  destruct (string_dec (virtual b) (real a)) as [E|_];
    [symmetry in E; now apply real_neq_virtual in E|].
  rewrite Nat.add_0_r.
  induction l as [|x l IH]; simpl; [reflexivity|].
  destruct (string_dec (real x) (real a)) as [E|E], (string_dec x a) as [E'|E'];
    try (apply real_inj in E); try congruence.
Qed.

(** C1, as stated, fails: in the list of the empty token and [90a] the
    empty token is the one without trailing letter suffix, and the
    [-virtual] entry is made from [90a].  The loop finds the empty token
    and takes it for no token found. *)
Lemma virtual_entry_skips_empty_token :
  generate_sass_ptx_arch_list [""; "90a"]
  = Ok ["-real"; "90a-real"; "90a-virtual"] /\
  ~ letter_suffixed "" /\ letter_suffixed "90a" /\
  virtual "" <> "90a-virtual".
Proof.
  split; [reflexivity|]. split; [|split].
  - apply not_letter_suffixed. reflexivity.
  - apply re_search_letter_end_spec. reflexivity.
  - discriminate.
Qed.

(** C1, amended.  A non-empty target list with a token of more than 4300
    leading digits makes the formatter raise [ValueError].  For any other
    non-empty target list the formatter returns the [-real] entries of the
    tokens in canonical order and, behind them, one [-virtual] entry, the
    only entry with that ending, made from a token [base] of the list.
    When the list has a token that is not empty and has no trailing letter
    suffix, [base] is such a token and no token of the list without
    trailing letter suffix has a greater number.  When every token of the
    list has a trailing letter suffix or is empty, no token of the list has
    a greater number than [base], which keeps its suffix in the entry. *)
Theorem virtual_entry_highest_unsuffixed (target_archs : list string) :
  target_archs <> [] ->
  ((exists a, In a target_archs /\ ~ fits a) ->
   generate_sass_ptx_arch_list target_archs = Raise "ValueError") /\
  ((forall a, In a target_archs -> fits a) ->
   exists base ordered,
     generate_sass_ptx_arch_list target_archs
     = Ok (map real ordered ++ [virtual base])%list /\
     Permutation ordered target_archs /\
     StronglySorted arch_le ordered /\
     filter (Str.endswith "-virtual") (map real ordered ++ [virtual base])%list
     = [virtual base] /\
     In base target_archs /\
     ((exists a, In a target_archs /\ a <> "" /\ ~ letter_suffixed a) ->
      base <> "" /\ ~ letter_suffixed base /\
      forall a, In a target_archs -> ~ letter_suffixed a ->
                num a <= num base) /\
     ((forall a, In a target_archs -> letter_suffixed a \/ a = "") ->
      forall a, In a target_archs -> num a <= num base)).
Proof.
  intros Hne. split.
  - intros H. apply generate_too_long; [assumption|].
    now apply Exists_not_fits.
  - intros Hfit. apply Forall_fits in Hfit.
    exists (ptx_target_base (in_order target_archs)), (in_order target_archs).
    split; [now apply generate_nonempty|].
    split; [apply in_order_perm|].
    pose proof (in_order_sorted target_archs) as Hs.
    pose proof (in_order_nonempty _ Hne) as Hne'.
    split; [exact Hs|].
    split; [apply filter_virtual_entries|].
    split; [apply in_order_In, ptx_target_base_In; assumption|].
    split.
    + intros (a & Ha & Hae & Hsuf).
      apply in_order_In in Ha. apply not_letter_suffixed in Hsuf.
      destruct (ptx_target_base_unsuffixed _ a Hs Ha Hae Hsuf)
        as (_ & H2 & H3).
      split.
      { intros E. specialize (H3 a Ha Hsuf). rewrite E in H3.
        unfold arch_le in H3. rewrite (empty_lt a Hae) in H3.
        discriminate. }
      split; [now apply not_letter_suffixed|].
      intros a' Ha' Hsuf'. apply arch_le_num, H3;
        [now apply in_order_In|now apply not_letter_suffixed].
    + intros Hall.
      assert (forall a, In a (in_order target_archs) ->
                        re_search_letter_end a = true \/ a = "") as Hall'.
      { intros a Ha. apply (proj1 (in_order_In _ _)) in Ha.
        destruct (Hall a Ha) as [H|H]; [left|now right].
        now apply re_search_letter_end_spec. }
      destruct (ptx_target_base_fallback _ Hs Hne' Hall') as (_ & _ & H3).
      intros a Ha. now apply arch_le_num, H3, in_order_In.
Qed.

Lemma virtual_entry_highest_unsuffixed_witness :
  exists base ordered,
    generate_sass_ptx_arch_list ["90a"; "80"; "90"; "86"]
    = Ok (map real ordered ++ [virtual base])%list /\
    In base ["90a"; "80"; "90"; "86"] /\
    base <> "" /\ ~ letter_suffixed base /\
    forall a, In a ["90a"; "80"; "90"; "86"] -> ~ letter_suffixed a ->
              num a <= num base.
Proof.
  destruct (virtual_entry_highest_unsuffixed ["90a"; "80"; "90"; "86"])
    as (_ & H); [discriminate|].
  destruct H as (base & ordered & H1 & _ & _ & _ & H2 & H3 & _); [all_fit|].
  exists base, ordered. split; [exact H1|]. split; [exact H2|].
  apply H3. exists "80". split; [simpl; auto|]. split; [discriminate|].
  apply not_letter_suffixed. reflexivity.
Defined.

(** C9, as stated, fails: the list of the one token made of 4301 digits
    is not empty, is in canonical order and holds no token twice, and the
    formatter raises on it. *)
Lemma formatter_raises_on_long_token :
  let target_archs := [repeat_char "9" 4301] in
  target_archs <> [] /\ NoDup target_archs /\
  Sorted arch_le target_archs /\
  generate_sass_ptx_arch_list target_archs = Raise "ValueError".
Proof.
  intros target_archs. split; [discriminate|].
  split; [repeat constructor; intros []|].
  split; [repeat constructor|].
  vm_compute. reflexivity.
Qed.

(** C9, amended.  For a non-empty list without duplicates and in
    canonical order whose tokens have 4300 leading digits at most, the
    output is the list's [-real] entries, in the order of the list,
    followed by one [-virtual] entry: every token of the list occurs once
    as a [-real] entry, the entries ending in [-real] are those of the
    tokens and nothing else, and one entry ends in [-virtual].  With a
    token of more than 4300 leading digits the formatter raises
    [ValueError]. *)
Theorem real_entries_once_and_one_virtual (target_archs : list string) :
  target_archs <> [] -> NoDup target_archs -> Sorted arch_le target_archs ->
  ((exists a, In a target_archs /\ ~ fits a) ->
   generate_sass_ptx_arch_list target_archs = Raise "ValueError") /\
  ((forall a, In a target_archs -> fits a) ->
   exists base final_archs,
     generate_sass_ptx_arch_list target_archs = Ok final_archs /\
     final_archs = (map real target_archs ++ [virtual base])%list /\
     (forall a, In a target_archs ->
                count_occ string_dec final_archs (real a) = 1%nat) /\
     filter (Str.endswith "-real") final_archs = map real target_archs /\
     filter (Str.endswith "-virtual") final_archs = [virtual base] /\
     List.length (filter (Str.endswith "-virtual") final_archs) = 1%nat).
Proof.
  intros Hne Hnd Hs. split.
  - intros H. apply generate_too_long; [assumption|].
    now apply Exists_not_fits.
  - intros Hfit. apply Forall_fits in Hfit.
    exists (ptx_target_base (in_order target_archs)). eexists.
    split; [now apply generate_nonempty|].
    rewrite (in_order_id _ Hs).
    split; [reflexivity|].
    split.
    { intros a Ha. rewrite count_occ_real.
      now apply (proj1 (NoDup_count_occ' string_dec target_archs)). }
    split; [apply filter_real_entries|].
    rewrite filter_virtual_entries. auto.
Qed.

Lemma real_entries_once_and_one_virtual_witness :
  exists base final_archs,
    generate_sass_ptx_arch_list ["80"; "86"; "90"; "90a"] = Ok final_archs /\
    final_archs = (map real ["80"; "86"; "90"; "90a"] ++ [virtual base])%list /\
    (forall a, In a ["80"; "86"; "90"; "90a"] ->
               count_occ string_dec final_archs (real a) = 1%nat) /\
    filter (Str.endswith "-real") final_archs
    = map real ["80"; "86"; "90"; "90a"] /\
    filter (Str.endswith "-virtual") final_archs = [virtual base] /\
    List.length (filter (Str.endswith "-virtual") final_archs) = 1%nat.
Proof.
  destruct (real_entries_once_and_one_virtual ["80"; "86"; "90"; "90a"])
    as (_ & H).
  - discriminate.
  - repeat constructor; simpl; intuition discriminate.
  - repeat constructor; reflexivity.
  - apply H. all_fit.
Defined.

(** ** Filters *)

Lemma mem_In x l : mem x l = true <-> In x l.
Proof.
  unfold mem. rewrite existsb_exists. split.
  - intros (y & Hy & E). apply String.eqb_eq in E. now subst.
  - intros H. exists x. split; [assumption|apply String.eqb_refl].
Qed.

Lemma mem_not_In x l : mem x l = false <-> ~ In x l.
Proof.
  rewrite <- mem_In. destruct (mem x l); split; congruence.
Qed.

Lemma desktop_x86_mem machine :
  desktop_x86 machine <-> mem (Str.lower machine) ["x86_64"; "amd64"] = true.
Proof.
  rewrite mem_In. unfold desktop_x86. simpl. intuition congruence.
Qed.

(** C4.  On a machine of the desktop x86 family the platform filter keeps,
    in their order and as often as they occur, the tokens that are none of
    72, 87, 101 and 101a, and drops those four; on any other machine it
    gives its input back. *)
Theorem platform_filter_exact (machine : string) (archs : list string) :
  (desktop_x86 machine ->
   filter_archs_for_platform machine archs
   = filter (fun arch =>
               if in_dec string_dec arch ["72"; "87"; "101"; "101a"]
               then false else true) archs /\
   forall arch,
     In arch (filter_archs_for_platform machine archs) <->
     In arch archs /\ arch <> "72" /\ arch <> "87" /\ arch <> "101"
     /\ arch <> "101a") /\
  (~ desktop_x86 machine -> filter_archs_for_platform machine archs = archs).
Proof.
  unfold filter_archs_for_platform. split; intros H.
  - apply desktop_x86_mem in H. rewrite H.
    change (if negb true then ?x else ?y) with y.
    assert (forall arch,
              negb (mem arch igpu_archs)
              = if in_dec string_dec arch ["72"; "87"; "101"; "101a"]
                then false else true) as E.
    { intros arch.
      destruct (in_dec string_dec arch ["72"; "87"; "101"; "101a"]) as [Hi|Hi].
      - apply mem_In in Hi. unfold igpu_archs. now rewrite Hi.
      - apply mem_not_In in Hi. unfold igpu_archs. now rewrite Hi. }
    split.
    + apply filter_ext. exact E.
    + intros arch. rewrite filter_In. cbv beta. rewrite E.
      destruct (in_dec string_dec arch ["72"; "87"; "101"; "101a"]) as [Hi|Hi];
        simpl in Hi; intuition congruence.
  - destruct (mem (Str.lower machine) ["x86_64"; "amd64"]) eqn:E;
      [|reflexivity].
    apply desktop_x86_mem in E. contradiction.
Qed.

Lemma platform_filter_exact_witness :
  filter_archs_for_platform "AMD64" ["72"; "75"; "101a"; "87"; "90"; "72"]
  = ["75"; "90"] /\
  filter_archs_for_platform "aarch64" ["72"; "75"; "101a"]
  = ["72"; "75"; "101a"].
Proof.
  split.
  - apply (proj1 (proj1 (platform_filter_exact "AMD64"
                           ["72"; "75"; "101a"; "87"; "90"; "72"])
                        (or_intror eq_refl))).
  - apply (proj2 (platform_filter_exact "aarch64" ["72"; "75"; "101a"])).
    intros [H|H]; discriminate H.
Defined.

Example platform_filter_demo :
  filter_archs_for_platform "x86_64" ["72"; "75"; "101a"; "87"; "90"; "72"]
  = ["75"; "90"]
  /\ filter_archs_for_platform "aarch64" ["72"; "75"; "101a"]
     = ["72"; "75"; "101a"].
Proof. split; reflexivity. Qed.

Lemma match_major_spec s : forall seen,
  match_major seen s = true <->
  exists d tail,
    (seen = true \/ d <> "") /\ Str.forallb Char.is_digit d = true /\
    at_dollar tail = true /\ s = d ++ String "0" tail.
Proof.
  induction s as [|c rest IH]; intros seen; simpl.
  - split; [discriminate|]. intros ([|? ?] & tail & _ & _ & _ & E); discriminate.
  - rewrite orb_true_iff, !andb_true_iff, Ascii.eqb_eq, IH. split.
    + intros [[[Hs ->] Hd]|[Hc (d & tail & _ & Hd & Ht & ->)]].
      * exists "", rest. auto.
      * exists (String c d), tail. simpl. rewrite Hc, Hd.
        repeat split; auto. right. discriminate.
    + intros ([|c' d] & tail & Hs & Hd & Ht & E); simpl in E, Hd;
        injection E as -> ->.
      * left. destruct Hs as [Hs|Hs]; [auto|congruence].
      * right. apply andb_true_iff in Hd as [Hc Hd].
        split; [assumption|]. exists d, tail. auto.
Qed.

Lemma re_match_major_spec arch :
  re_match_major arch = true <-> major_form arch.
Proof.
  unfold re_match_major, major_form. rewrite match_major_spec.
  split; intros (d & tail & H1 & H2 & H3 & H4); exists d, tail.
  - apply at_dollar_spec in H3. destruct H1; [discriminate|auto].
  - apply at_dollar_spec in H3. auto.
Qed.

(** C5, as stated, fails: the token [0] is numeric throughout and ends in
    [0], and the filter drops it. *)
Lemma major_filter_drops_lone_zero :
  In "0" ["0"] /\ numeric_ending_in_0 "0" = true /\
  ~ In "0" (filter_major_archs ["0"]).
Proof.
  split; [now left|]. split; [reflexivity|]. simpl. tauto.
Qed.

Lemma forallb_app p a b :
  Str.forallb p (a ++ b) = Str.forallb p a && Str.forallb p b.
Proof.
  induction a as [|c a IH]; simpl; [reflexivity|].
  now rewrite IH, andb_assoc.
Qed.

(** C5, amended.  The major-only filter keeps exactly the tokens made of
    one digit or more followed by a final [0], a line feed behind that [0]
    being let through: its output is its input with the other tokens
    taken out, order kept, every element of it has that form, and an
    element without line feed is numeric throughout, ends in [0] and has
    two characters at least. *)
Theorem major_filter_exact (archs : list string) :
  exists keep : string -> bool,
    (forall arch, keep arch = true <-> major_form arch) /\
    filter_major_archs archs = filter keep archs /\
    (forall arch, In arch (filter_major_archs archs) <->
                  In arch archs /\ major_form arch) /\
    (forall arch, In arch (filter_major_archs archs) ->
                  Str.forallb (fun c => negb (Ascii.eqb c Char.LF)) arch = true ->
                  numeric_ending_in_0 arch = true /\
                  (2 <= String.length arch)%nat).
Proof.
  exists re_match_major.
  split; [apply re_match_major_spec|].
  split; [reflexivity|].
  split.
  - intros arch. unfold filter_major_archs.
    now rewrite filter_In, re_match_major_spec.
  - intros arch Hin Hlf. unfold filter_major_archs in Hin.
    apply filter_In in Hin as [_ Hm].
    apply re_match_major_spec in Hm as (d & tail & Hd & Hdig & Ht & ->).
    destruct Ht as [-> | ->].
    + split.
      * unfold numeric_ending_in_0, Str.endswith, Str.rev.
        rewrite forallb_app, Hdig, rev_onto_app. reflexivity.
      * destruct d as [|c d]; [congruence|]. simpl.
        destruct d; simpl; lia.
    + rewrite forallb_app in Hlf. apply andb_true_iff in Hlf as [_ Hlf].
      vm_compute in Hlf. discriminate Hlf.
Qed.

Example major_filter_demo :
  filter_major_archs ["70"; "75"; "80"; "86"; "90"; "90a"; "100"; "0"]
  = ["70"; "80"; "90"; "100"].
Proof. reflexivity. Qed.

Lemma major_filter_exact_witness :
  In "80" (filter_major_archs ["75"; "80"; "0"]) /\
  ~ In "0" (filter_major_archs ["75"; "80"; "0"]) /\
  numeric_ending_in_0 "80" = true.
Proof.
  destruct (major_filter_exact ["75"; "80"; "0"]) as (keep & H1 & H2 & H3 & H4).
  split; [vm_compute; auto|].
  split; [vm_compute; intuition discriminate|].
  apply (H4 "80"); [vm_compute; auto | reflexivity].
Defined.

(** ** Capability Prober *)

Lemma startswith_spec p : forall s,
  Str.startswith p s = true <-> exists rest, s = p ++ rest.
Proof.
  induction p as [|a p IH]; intros s; simpl.
  - split; [intros _; now exists s | reflexivity].
  - destruct s as [|b s].
    + split; [discriminate|]. intros [rest E]. discriminate.
    + rewrite andb_true_iff, Ascii.eqb_eq, IH. split.
      * intros [-> [rest ->]]. now exists rest.
      * intros [rest E]. injection E as -> ->. split; [reflexivity|now exists rest].
Qed.

Lemma startswith_sm line :
  Str.startswith "sm_" line = true <-> line = "sm_" ++ Str.drop 3 line.
Proof.
  rewrite startswith_spec. split.
  - intros [rest ->]. reflexivity.
  - intros E. now exists (Str.drop 3 line).
Qed.

Lemma set_add_In x raw a : In a (set_add x raw) <-> a = x \/ In a raw.
Proof.
  unfold set_add. destruct (existsb (String.eqb x) raw) eqn:E.
  - change (mem x raw = true) in E. apply mem_In in E.
    intuition congruence.
  - rewrite in_app_iff. simpl. intuition congruence.
Qed.

Lemma set_add_NoDup x raw : NoDup raw -> NoDup (set_add x raw).
Proof.
  intros H. unfold set_add. destruct (existsb (String.eqb x) raw) eqn:E.
  - assumption.
  - change (mem x raw = false) in E. apply mem_not_In in E.
    apply NoDup_app; [assumption|repeat constructor; intros []|].
    intros a Ha [<-|[]]. contradiction.
Qed.

Lemma collect_sm_In lines : forall raw a,
  In a (collect_sm lines raw) <->
  In a raw \/ exists line, In line lines /\ Str.strip line = "sm_" ++ a.
Proof.
  induction lines as [|line rest IH]; intros raw a;
    cbn [collect_sm In]; cbv zeta.
  - split; [now left|]. intros [H|(l & [] & _)]. exact H.
  - destruct (Str.startswith "sm_" (Str.strip line)) eqn:E; rewrite IH.
    + apply startswith_sm in E. rewrite set_add_In. split.
      * intros [[->|H]|(l & Hl & El)]; eauto.
      * intros [H|(l & [<-|Hl] & El)]; eauto.
        left. left. rewrite E in El. now apply append_inj_r in El.
    + split.
      * intros [H|(l & Hl & El)]; eauto.
      * intros [H|(l & [<-|Hl] & El)]; eauto.
        assert (Str.startswith "sm_" (Str.strip line) = true)
          by (apply startswith_spec; eauto).
        congruence.
Qed.

Lemma collect_sm_NoDup lines : forall raw,
  NoDup raw -> NoDup (collect_sm lines raw).
Proof.
  induction lines as [|line rest IH]; intros raw H;
    cbn [collect_sm]; cbv zeta; [assumption|].
  destruct (Str.startswith "sm_" (Str.strip line)); apply IH;
    [now apply set_add_NoDup | assumption].
Qed.

Lemma int_of_digits_fits arch d :
  re_match_digits arch = Some d -> fits arch ->
  Str.int_of_digits d = Ok (Str.digits_value d).
Proof.
  unfold re_match_digits, fits, Str.int_of_digits. intros E H.
  destruct (Str.take_while Char.is_digit arch) as [|c d'] eqn:Et;
    [discriminate|].
  injection E as <-. apply N.ltb_ge in H. now rewrite H.
Qed.

Lemma is_arch_id_prefix arch :
  is_arch_id arch = true -> fits arch ->
  exists d n,
    re_match_digits arch = Some d /\ Str.int_of_digits d = Ok n /\ 0 <= n.
Proof.
  intros Hid Hfit.
  assert (exists d, re_match_digits arch = Some d /\
                    Str.forallb Char.is_digit d = true) as (d & E & Hd).
  { destruct arch as [|c rest]; simpl in Hid; [discriminate|].
    apply andb_true_iff in Hid as [Hc _].
    pose proof (take_while_forallb Char.is_digit (String c rest)) as Hd.
    unfold re_match_digits. simpl in *. rewrite Hc in *. eauto. }
  exists d, (Str.digits_value d).
  split; [assumption|]. split; [now apply (int_of_digits_fits arch)|].
  now apply digits_value_nonneg.
Qed.

Lemma parse_code_ls_cases nvcc stdout :
  let raw := collect_sm (code_ls_lines stdout) [] in
  (raw = [] /\
   parse_code_ls nvcc (Completed stdout)
   = Die "Could not parse any architectures (sm_XX) from 'nvcc -code-ls' output.")
  \/ (raw <> [] /\ Forall fits raw /\
       parse_code_ls nvcc (Completed stdout) = Ok (in_order raw))
  \/ (raw <> [] /\ Exists (fun a => ~ fits a) raw /\
       parse_code_ls nvcc (Completed stdout) = Raise "ValueError").
Proof.
  intros raw. unfold parse_code_ls. fold raw.
  destruct raw as [|x raw'] eqn:E; [now left|]. right.
  destruct (fits_all_or_not (x :: raw')) as [H|H]; [left|right].
  - rewrite (sorted_fits _ H). repeat split; [discriminate|assumption].
  - rewrite (sorted_too_long _ H). repeat split; [discriminate|assumption].
Qed.

(** C8, as stated, fails: a line that starts with [sm_] and goes on with
    anything gives an identifier, here one without numeric prefix. *)
Lemma prober_keeps_any_sm_line :
  parse_code_ls "nvcc" (Completed "sm_foo") = Ok ["foo"] /\
  re_match_digits "foo" = None /\ is_arch_id "foo" = false.
Proof. repeat split. Qed.

(** C8, amended.  The identifiers the listing names are what follows
    [sm_] on its stripped lines that start with [sm_]; a line that does
    not start with [sm_] names none.  When the listing names no
    identifier the prober dies.  When it names an identifier of more than
    4300 leading digits the prober raises [ValueError].  In any other case
    the prober returns, and the identifiers it returns are those the
    listing names.  When each of them is digits and at most one letter
    behind them, every identifier returned has that form, and its numeric
    prefix is there and is converted to a number that is not negative. *)
Theorem prober_identifiers (nvcc stdout : string) :
  let lines := code_ls_lines stdout in
  ((forall line, In line lines ->
                 Str.startswith "sm_" (Str.strip line) = false) ->
   parse_code_ls nvcc (Completed stdout)
   = Die "Could not parse any architectures (sm_XX) from 'nvcc -code-ls' output.")
  /\
  ((exists line a, In line lines /\ Str.strip line = "sm_" ++ a /\
                   ~ fits a) ->
   parse_code_ls nvcc (Completed stdout) = Raise "ValueError")
  /\
  ((exists line, In line lines /\
                 Str.startswith "sm_" (Str.strip line) = true) ->
   (forall line a, In line lines -> Str.strip line = "sm_" ++ a -> fits a) ->
   exists archs,
     parse_code_ls nvcc (Completed stdout) = Ok archs /\
     (forall a, In a archs <->
                exists line, In line lines /\ Str.strip line = "sm_" ++ a) /\
     ((forall line a, In line lines -> Str.strip line = "sm_" ++ a ->
                      is_arch_id a = true) ->
      forall a, In a archs ->
        is_arch_id a = true /\
        exists d n, re_match_digits a = Some d /\
                    Str.int_of_digits d = Ok n /\ 0 <= n)).
Proof.
  intros lines.
  pose proof (collect_sm_In lines []) as HIn.
  assert (forall a, In a (collect_sm lines []) <->
                    exists line, In line lines /\
                                 Str.strip line = "sm_" ++ a) as Hnamed
      by (intros a; rewrite HIn; simpl; tauto).
  destruct (parse_code_ls_cases nvcc stdout)
    as [[Hraw Hp]|[(Hraw & Hfit & Hp)|(Hraw & Hlong & Hp)]];
    fold lines in Hraw, Hp; try fold lines in Hfit; try fold lines in Hlong;
    rewrite Hp.
  - split; [reflexivity|]. split.
    + intros (line & a & Hl & E & _).
      assert (In a (collect_sm lines [])) as Ha by (apply Hnamed; eauto).
      rewrite Hraw in Ha. contradiction.
    + intros (line & Hl & E) _. apply startswith_sm in E.
      assert (In (Str.drop 3 (Str.strip line)) (collect_sm lines [])) as Ha
          by (apply Hnamed; eauto).
      rewrite Hraw in Ha. contradiction.
  - rewrite Forall_forall in Hfit. split; [|split].
    + intros Hnone. exfalso.
      destruct (collect_sm lines []) as [|x raw]; [congruence|].
      destruct (proj1 (Hnamed x) (or_introl eq_refl)) as (line & Hl & E).
      assert (Str.startswith "sm_" (Str.strip line) = true) as Hs
          by (apply startswith_spec; eauto).
      rewrite (Hnone line Hl) in Hs. discriminate.
    + intros (line & a & Hl & E & Hn). exfalso. apply Hn, Hfit, Hnamed. eauto.
    + intros _ _. exists (in_order (collect_sm lines [])).
      split; [reflexivity|].
      assert (forall a, In a (in_order (collect_sm lines [])) <->
                        exists line, In line lines /\
                                     Str.strip line = "sm_" ++ a) as Hiff
          by (intros a; now rewrite in_order_In).
      split; [exact Hiff|].
      intros Hform a Ha.
      assert (fits a) as Hfa
          by (apply Hfit; exact (proj1 (in_order_In _ _) Ha)).
      apply Hiff in Ha as (l & Hl' & El).
      pose proof (Hform l a Hl' El) as Hid.
      split; [assumption|now apply is_arch_id_prefix].
  - apply Exists_exists in Hlong as (x & Hx & Hnx). split; [|split].
    + intros Hnone. exfalso.
      apply Hnamed in Hx as (line & Hl & E).
      assert (Str.startswith "sm_" (Str.strip line) = true) as Hs
          by (apply startswith_spec; eauto).
      rewrite (Hnone line Hl) in Hs. discriminate.
    + reflexivity.
    + intros _ Hall. exfalso.
      apply Hnamed in Hx as (line & Hl & E). apply Hnx. eauto.
Qed.

Lemma prober_identifiers_witness :
  exists archs,
    parse_code_ls "nvcc" (Completed "sm_75
compute_75
 sm_90a ") = Ok archs /\
    forall a, In a archs -> is_arch_id a = true.
Proof.
  destruct (proj2 (proj2 (prober_identifiers "nvcc" "sm_75
compute_75
 sm_90a "))) as (archs & H1 & H2 & H3).
  - exists "sm_75". split; [vm_compute; auto|reflexivity].
  - intros line a' Hl El. vm_compute in Hl.
    destruct Hl as [<-|[<-|[<-|[]]]]; vm_compute in El;
      try discriminate El; injection El as <-; vm_compute; discriminate.
  - exists archs. split; [assumption|].
    intros a Ha. apply H3; [|assumption].
    intros line a' Hl El. vm_compute in Hl.
    destruct Hl as [<-|[<-|[<-|[]]]]; vm_compute in El;
      try discriminate El; injection El as <-; reflexivity.
Defined.

(** ** Validator *)

Lemma validate_loop_spec sup minf pf min user : forall validated,
  (Forall (passes sup minf pf) user /\
   validate_loop user sup minf pf min validated
   = Ok (validated ++ user)%list)
  \/ (exists before arch after msg,
         user = (before ++ arch :: after)%list /\
         Forall (passes sup minf pf) before /\
         rejected sup minf pf min arch msg /\
         validate_loop user sup minf pf min validated = Die msg).
Proof.
  induction user as [|arch rest IH]; intros validated; cbn [validate_loop].
  - left. split; [constructor|now rewrite app_nil_r].
  - cbv zeta.
    destruct (mem arch sup) eqn:E1; cbn [negb].
    2:{ right. exists [], arch, rest. eexists. apply mem_not_In in E1.
        split; [reflexivity|]. split; [constructor|].
        split; [left; split; [assumption|reflexivity]|reflexivity]. }
    destruct (mem arch minf) eqn:E2; cbn [negb].
    2:{ right. exists [], arch, rest. eexists.
        apply mem_In in E1. apply mem_not_In in E2.
        split; [reflexivity|]. split; [constructor|].
        split; [right; left; repeat split; auto|reflexivity]. }
    destruct (mem arch pf) eqn:E3; cbn [negb].
    2:{ right. exists [], arch, rest. eexists.
        apply mem_In in E1, E2. apply mem_not_In in E3.
        split; [reflexivity|]. split; [constructor|].
        split; [right; right; repeat split; auto|reflexivity]. }
    apply mem_In in E1, E2, E3.
    destruct (IH (validated ++ [arch])%list)
      as [[Hall Hok]|(before & t & after & msg & -> & Hb & Hrej & Hdie)].
    + left. split; [constructor; [now repeat split|assumption]|].
      rewrite Hok, <- app_assoc. reflexivity.
    + right. exists (arch :: before), t, after, msg.
      repeat split; auto. constructor; [now repeat split|assumption].
Qed.

Lemma join_empty sep parts :
  sep <> "" -> Str.join sep parts = "" -> parts = [] \/ parts = [""].
Proof.
  intros Hsep. destruct parts as [|x [|y rest]]; simpl; intros H.
  - now left.
  - right. now subst.
  - destruct x; [|discriminate]. simpl in H.
    destruct sep; [congruence|discriminate].
Qed.

Lemma messages_distinct arch min valid :
  msg_unsupported arch valid <> msg_below_min arch min valid /\
  msg_unsupported arch valid <> msg_igpu arch valid /\
  msg_below_min arch min valid <> msg_igpu arch valid.
Proof.
  unfold msg_unsupported, msg_below_min, msg_igpu.
  repeat split; intros H;
    apply (append_inj_r "Requested architecture '") in H;
    apply append_inj_r in H; discriminate H.
Qed.

Lemma messages_end_with_guidance arch min valid :
  (exists lead, msg_unsupported arch valid
                = lead ++ "Valid architectures: " ++ valid) /\
  (exists lead, msg_below_min arch min valid
                = lead ++ "Valid architectures: " ++ valid) /\
  (exists lead, msg_igpu arch valid
                = lead ++ "Valid architectures: " ++ valid).
Proof.
  unfold msg_unsupported, msg_below_min, msg_igpu. repeat split.
  - exists ("Requested architecture '" ++ arch
              ++ "' is not supported by this version of nvcc. ").
    now rewrite !append_assoc.
  - exists ("Requested architecture '" ++ arch
              ++ "' does not meet minimum requirement (sm_"
              ++ Str.of_optional_int min ++ "). ").
    now rewrite !append_assoc.
  - exists ("Requested architecture '" ++ arch
              ++ "' corresponds to an iGPU not supported on this platform (x86_64). ").
    now rewrite !append_assoc.
Qed.

(** C2, as stated, fails: with the empty token as the only
    platform-filtered one, a list that is not empty, the message ends in
    the marker [<None>] and not in the list.  A listing with the one line
    [sm_] brings this about in a run. *)
Lemma guidance_marker_for_empty_token :
  validate_user_archs ["90"] [""] [""] [""] None
  = Die ("Requested architecture '90' is not supported by this version "
           ++ "of nvcc. Valid architectures: <None>") /\
  [""] <> ([] : list string) /\
  how (run (toolchain_listing "sm_" "x86_64") (main (request "90" None)))
  = Died ("Requested architecture '90' is not supported by this version "
            ++ "of nvcc. Valid architectures: <None>").
Proof. split; [reflexivity|]. split; [discriminate|reflexivity]. Qed.

(** C2, amended.  For a list of tokens that is not empty, either every
    token is in the supported list, in the minimum-filtered list and in
    the platform-filtered list and the tokens come back as they are, or
    the validator dies at the first token that fails a check, the tokens
    in front of it passing all three, with the message of the first check
    that token fails, the checks being taken in the order supported,
    minimum, platform.  The three messages differ from one another, and
    each ends in the guidance: the marker [<None>] when the
    platform-filtered list is empty or holds the empty token and nothing
    else, and in any other case the platform-filtered tokens joined by
    comma and space, which is not the empty string. *)
Theorem validation_order_and_messages
  (user_archs nvcc_supported_archs min_filtered_archs
     platform_filtered_archs : list string) (min_arch_value : option Z) :
  user_archs <> [] ->
  let validated :=
    validate_user_archs user_archs nvcc_supported_archs min_filtered_archs
      platform_filtered_archs min_arch_value in
  let valid := final_valid_archs_str platform_filtered_archs in
  ((Forall (passes nvcc_supported_archs min_filtered_archs
              platform_filtered_archs) user_archs /\
    validated = Ok user_archs)
   \/ (exists before arch after msg,
          user_archs = (before ++ arch :: after)%list /\
          Forall (passes nvcc_supported_archs min_filtered_archs
                    platform_filtered_archs) before /\
          rejected nvcc_supported_archs min_filtered_archs
            platform_filtered_archs min_arch_value arch msg /\
          validated = Die msg /\
          exists lead, msg = lead ++ "Valid architectures: " ++ valid)) /\
  (forall arch,
     msg_unsupported arch valid <> msg_below_min arch min_arch_value valid /\
     msg_unsupported arch valid <> msg_igpu arch valid /\
     msg_below_min arch min_arch_value valid <> msg_igpu arch valid) /\
  (platform_filtered_archs = [] \/ platform_filtered_archs = [""] ->
   valid = "<None>") /\
  (platform_filtered_archs <> [] -> platform_filtered_archs <> [""] ->
   valid = Str.join ", " platform_filtered_archs /\ valid <> "").
Proof.
  intros Hne validated valid. split; [|split; [|split]].
  - subst validated. unfold validate_user_archs.
    destruct user_archs as [|u rest] eqn:Eu; [congruence|]. rewrite <- Eu.
    destruct (validate_loop_spec nvcc_supported_archs min_filtered_archs
                platform_filtered_archs min_arch_value user_archs [])
      as [[Hall Hok]|(before & t & after & msg & E & Hb & Hrej & Hdie)].
    + left. split; assumption.
    + right. exists before, t, after, msg. repeat split; auto.
      destruct (messages_end_with_guidance t min_arch_value valid)
        as (L1 & L2 & L3).
      destruct Hrej as [(_ & ->)|[(_ & _ & ->)|(_ & _ & _ & ->)]]; assumption.
  - intros arch. apply messages_distinct.
  - intros [-> | ->]; reflexivity.
  - intros H1 H2. subst valid. unfold final_valid_archs_str.
    destruct (String.eqb_spec (Str.join ", " platform_filtered_archs) "")
      as [E|E]; [|split; [reflexivity|assumption]].
    apply join_empty in E; [tauto|discriminate].
Qed.

Lemma validation_order_and_messages_witness :
  validate_user_archs ["72"; "86"] ["72"; "80"; "86"] ["72"; "80"; "86"]
    ["80"; "86"] None
  = Die ("Requested architecture '72' corresponds to an iGPU not supported "
           ++ "on this platform (x86_64). Valid architectures: 80, 86").
Proof.
  destruct (validation_order_and_messages ["72"; "86"] ["72"; "80"; "86"]
              ["72"; "80"; "86"] ["80"; "86"] None) as (H & _).
  - discriminate.
  - destruct H as [[_ Hok]|(before & t & after & msg & _ & _ & _ & Hdie & _)].
    + vm_compute in Hok. discriminate Hok.
    + vm_compute. reflexivity.
Defined.

Example validation_demo :
  validate_user_archs ["200"] ["80"; "86"] ["80"; "86"] ["80"; "86"] None
  = Die (msg_unsupported "200" "80, 86")
  /\ validate_user_archs ["75"] ["75"; "86"] ["86"] [] (Some 80)
     = Die ("Requested architecture '75' does not meet minimum requirement "
              ++ "(sm_80). Valid architectures: <None>")
  /\ validate_user_archs ["86"; "80"; "86"] ["80"; "86"] ["80"; "86"]
       ["80"; "86"] None
     = Ok ["86"; "80"; "86"].
Proof. repeat split. Qed.

(** ** Runs of the program *)

Lemma run_main_native w a :
  Str.lower (requested_archs a) = "native" ->
  run w (main a)
  = {| how := Exited 0; stdout := "native"; commands := [] |}.
Proof. intros H. unfold run, main. now rewrite H. Qed.

(** A run that is not the [native] one probes the toolchain once and comes
    to what [printed] says. *)
Lemma run_main_probing w a :
  Str.lower (requested_archs a) <> "native" ->
  run w (main a)
  = outcome_of (printed w a) [[located_nvcc w a; "-code-ls"]].
Proof.
  intros H. apply String.eqb_neq in H.
  unfold run, main, printed, dispatched, probed, located_nvcc, main_probe.
  rewrite H.
  destruct (truthy (nvcc_path a)); simpl;
    match goal with
    | |- context [parse_code_ls ?p ?r] => destruct (parse_code_ls p r) as [sup| |]
    end; simpl; try reflexivity;
    (destruct (filter_archs_with_min_arch sup (min_arch a)) as [minf| |];
     simpl; try reflexivity;
     match goal with
     | |- context [main_dispatch ?x ?y ?z ?t] =>
         destruct (main_dispatch x y z t) as [[|t0 target]| |]
     end; simpl; try reflexivity;
     destruct (sorted (t0 :: target)); reflexivity).
Qed.

(** C6.  A [native] request prints the token [native] and nothing else and
    exits with code 0, whatever the outside is, and no command is run: the
    program is the two steps print and exit. *)
Theorem native_request_short_circuit (w : world) (a : args) :
  Str.lower (requested_archs a) = "native" ->
  main a = Emit "native" (SysExit 0) /\
  stdout (run w (main a)) = "native" /\
  how (run w (main a)) = Exited 0 /\
  exit_code (how (run w (main a))) = 0 /\
  commands (run w (main a)) = [].
Proof.
  intros H. rewrite (run_main_native w a H). simpl.
  unfold main. rewrite H. auto.
Qed.

Lemma native_request_short_circuit_witness :
  let w := no_toolchain "x86_64" in
  let a := request "native" None in
  main a = Emit "native" (SysExit 0) /\
  stdout (run w (main a)) = "native" /\
  how (run w (main a)) = Exited 0 /\
  exit_code (how (run w (main a))) = 0 /\
  commands (run w (main a)) = [].
Proof.
  apply (native_request_short_circuit (no_toolchain "x86_64")
           (request "native" None)).
  reflexivity.
Defined.

(** C7.  When the request is dispatched and the target list that comes back
    is empty, the program dies, so with exit code 1 and nothing printed, and
    the message holds the request as it was typed, the value of
    [--min-arch] and what [platform.machine()] gave. *)
Theorem empty_target_list_is_fatal (w : world) (a : args) :
  Str.lower (requested_archs a) <> "native" ->
  dispatched w a = Ok [] ->
  how (run w (main a))
  = Died ("No valid CUDA architectures could be determined for request '"
            ++ requested_archs a
            ++ "' with current filters (min_arch="
            ++ Str.of_optional_int (min_arch a)
            ++ ", platform=" ++ platform_machine w ++ ").") /\
  exit_code (how (run w (main a))) = 1 /\
  stdout (run w (main a)) = "".
Proof.
  intros Hn Hd. rewrite (run_main_probing w a Hn).
  unfold printed. rewrite Hd. simpl. auto.
Qed.

Lemma empty_target_list_is_fatal_witness :
  let w := toolchain_listing "sm_70
sm_75" "x86_64" in
  let a := request "All" (Some 80) in
  how (run w (main a))
  = Died ("No valid CUDA architectures could be determined for request '"
            ++ "All" ++ "' with current filters (min_arch="
            ++ "80" ++ ", platform=" ++ "x86_64" ++ ").") /\
  exit_code (how (run w (main a))) = 1 /\
  stdout (run w (main a)) = "".
Proof.
  apply (empty_target_list_is_fatal
           (toolchain_listing "sm_70
sm_75" "x86_64") (request "All" (Some 80))).
  - vm_compute. discriminate.
  - vm_compute. reflexivity.
Defined.

(** C3.  With a toolchain whose listing gives the supported set
    70, 75, 80, 86, 90, 90a, with [--min-arch 80], on a desktop
    x86-family machine and for the request [all], the target list is
    80, 86, 90, 90a, which is in canonical order, and the program prints
    [80-real;86-real;90-real;90a-real;90-virtual] and ends normally. *)
Theorem scenario_all_min80_desktop (w : world) (a : args) (listing : string) :
  Str.lower (requested_archs a) = "all" ->
  min_arch a = Some 80 ->
  desktop_x86 (platform_machine w) ->
  subprocess_run w [located_nvcc w a; "-code-ls"] = Completed listing ->
  Permutation (collect_sm (code_ls_lines listing) [])
              ["70"; "75"; "80"; "86"; "90"; "90a"] ->
  dispatched w a = Ok ["80"; "86"; "90"; "90a"] /\
  sorted ["80"; "86"; "90"; "90a"] = Ok ["80"; "86"; "90"; "90a"] /\
  generate_sass_ptx_arch_list ["80"; "86"; "90"; "90a"]
  = Ok ["80-real"; "86-real"; "90-real"; "90a-real"; "90-virtual"] /\
  stdout (run w (main a)) = "80-real;86-real;90-real;90a-real;90-virtual" /\
  how (run w (main a)) = Finished.
Proof.
  intros Hreq Hmin Hm Hrun HP.
  assert (dispatched w a = Ok ["80"; "86"; "90"; "90a"]) as Hd.
  { unfold dispatched, probed. rewrite Hrun. unfold parse_code_ls.
    destruct (collect_sm (code_ls_lines listing) []) as [|x raw] eqn:E.
    - apply Permutation_nil in HP. discriminate.
    - assert (Forall fits (x :: raw)) as Hfit
          by (apply (Permutation_Forall (Permutation_sym HP));
              repeat constructor; vm_compute; discriminate).
      rewrite (sorted_fits _ Hfit), (in_order_order_independent _ _ HP), Hmin.
      unfold main_dispatch, filter_archs_for_platform.
      rewrite Hreq, (proj1 (desktop_x86_mem _) Hm). reflexivity. }
  split; [exact Hd|].
  split; [reflexivity|].
  split; [reflexivity|].
  assert (Str.lower (requested_archs a) <> "native") as Hn
      by (rewrite Hreq; discriminate).
  rewrite (run_main_probing w a Hn). unfold printed. rewrite Hd.
  split; reflexivity.
Qed.

Lemma scenario_all_min80_desktop_witness :
  let w := toolchain_listing "sm_70
sm_75
sm_80
sm_86
sm_90
sm_90a
" "x86_64" in
  let a := request "all" (Some 80) in
  dispatched w a = Ok ["80"; "86"; "90"; "90a"] /\
  sorted ["80"; "86"; "90"; "90a"] = Ok ["80"; "86"; "90"; "90a"] /\
  generate_sass_ptx_arch_list ["80"; "86"; "90"; "90a"]
  = Ok ["80-real"; "86-real"; "90-real"; "90a-real"; "90-virtual"] /\
  stdout (run w (main a)) = "80-real;86-real;90-real;90a-real;90-virtual" /\
  how (run w (main a)) = Finished.
Proof.
  apply (scenario_all_min80_desktop
           (toolchain_listing "sm_70
sm_75
sm_80
sm_86
sm_90
sm_90a
" "x86_64") (request "all" (Some 80)) "sm_70
sm_75
sm_80
sm_86
sm_90
sm_90a
").
  - reflexivity.
  - reflexivity.
  - left. reflexivity.
  - reflexivity.
  - vm_compute. apply Permutation_refl.
Defined.

(** ** Request parsing *)

Lemma rev_onto_eq a : forall acc, Str.rev_onto a acc = Str.rev a ++ acc.
Proof.
  unfold Str.rev. induction a as [|c a IH]; simpl; intros acc; [reflexivity|].
  rewrite IH, (IH (String c "")), append_assoc. reflexivity.
Qed.

Lemma rev_app a b : Str.rev (a ++ b) = Str.rev b ++ Str.rev a.
Proof.
  unfold Str.rev at 1. rewrite rev_onto_app, rev_onto_eq. reflexivity.
Qed.

Lemma take_drop_while p s :
  s = Str.take_while p s ++ Str.drop_while p s.
Proof.
  induction s as [|c s IH]; simpl; [reflexivity|].
  destruct (p c); simpl; [now rewrite <- IH|reflexivity].
Qed.

Lemma strip_substring s : substring_of (Str.strip s) s.
Proof.
  unfold Str.strip.
  set (t := Str.drop_while Char.is_space s).
  exists (Str.take_while Char.is_space s),
         (Str.rev (Str.take_while Char.is_space (Str.rev t))).
  rewrite <- rev_app, <- take_drop_while, rev_involutive.
  apply take_drop_while.
Qed.

Lemma split_runs_head s :
  exists piece pieces after,
    split_runs false s = piece :: pieces /\ s = piece ++ after.
Proof.
  induction s as [|c s (piece & pieces & after & E & Es)]; simpl.
  - exists "", [], "". auto.
  - destruct (is_sep c).
    + exists "", (split_runs true s), (String c s). auto.
    + rewrite E. exists (String c piece), pieces, after.
      split; [reflexivity|]. simpl. now rewrite <- Es.
Qed.

Lemma split_runs_substring s : forall in_run t,
  In t (split_runs in_run s) -> substring_of t s.
Proof.
  induction s as [|c s IH]; intros in_run t; simpl.
  - intros [<-|[]]. now exists "", "".
  - destruct (is_sep c).
    + assert (In t (split_runs true s) -> substring_of t (String c s)) as Hrec.
      { intros H. destruct (IH _ _ H) as (before & after & ->).
        now exists (String c before), after. }
      destruct in_run; [exact Hrec|].
      intros [<-|H]; [|now apply Hrec]. now exists "", (String c s).
    + destruct (split_runs_head s) as (piece & pieces & after & E & Es).
      pose proof (IH false) as IH'. rewrite E in *.
      intros [<-|H].
      * exists "", after. simpl. now rewrite <- Es.
      * destruct (IH' t (or_intror H)) as (before & after' & ->).
        now exists (String c before), after'.
Qed.

Lemma substring_of_trans t s u :
  substring_of t s -> substring_of s u -> substring_of t u.
Proof.
  intros (b1 & a1 & ->) (b2 & a2 & ->).
  exists (b2 ++ b1), (a1 ++ a2). now rewrite !append_assoc.
Qed.

Lemma parse_requested_archs_verbatim req t :
  In t (parse_requested_archs req) -> substring_of t req /\ t <> "".
Proof.
  unfold parse_requested_archs.
  destruct (String.eqb req ""); [intros []|].
  rewrite filter_In. intros [H Hne]. split.
  - apply substring_of_trans with (Str.strip req);
      [now apply split_runs_substring in H | apply strip_substring].
  - unfold nonempty in Hne. apply negb_true_iff, String.eqb_neq in Hne.
    exact Hne.
Qed.

Lemma validate_user_archs_ok user sup minf pf min targets :
  validate_user_archs user sup minf pf min = Ok targets ->
  targets = user /\ user <> [] /\ Forall (passes sup minf pf) targets.
Proof.
  unfold validate_user_archs.
  destruct user as [|u rest] eqn:Eu; [discriminate|]. rewrite <- Eu.
  destruct (validate_loop_spec sup minf pf min user [])
    as [[Hall Hok]|(before & t & after & msg & _ & _ & _ & Hdie)];
    intros H.
  - rewrite Hok in H. injection H as <-. simpl.
    repeat split; [congruence|assumption].
  - rewrite Hdie in H. discriminate.
Qed.

(** ** Request modes *)

Lemma mode_runs_agree w a mode :
  mode = "all" \/ mode = "all-major" ->
  Str.lower (requested_archs a) = mode ->
  dispatched w a = dispatched w (with_request a mode) /\
  same_behaviour (run w (main a)) (run w (main (with_request a mode))).
Proof.
  intros Hmode Hreq.
  assert (Str.lower mode = mode) as Hlow by (destruct Hmode; now subst).
  assert (mode <> "native") as Hn by (destruct Hmode; subst; discriminate).
  assert (dispatched w a = dispatched w (with_request a mode)) as Hd.
  { unfold dispatched, probed, located_nvcc. simpl.
    destruct (parse_code_ls _ _) as [sup| |]; simpl; try reflexivity.
    destruct (filter_archs_with_min_arch sup (min_arch a)) as [minf| |];
      simpl; try reflexivity.
    unfold main_dispatch. simpl. rewrite Hreq, Hlow.
    destruct Hmode; subst; reflexivity. }
  split; [exact Hd|].
  rewrite !run_main_probing by (simpl; congruence).
  unfold printed. rewrite <- Hd.
  change (located_nvcc w (with_request a mode)) with (located_nvcc w a).
  destruct (dispatched w a) as [[|t targets]| |]; simpl;
    repeat split; reflexivity.
Qed.

(** C10.  The request is dispatched on its lower-case form.  A request
    whose lower-case form is [native] runs as [native] does.  A request
    whose lower-case form is [all] or [all-major] gets the target list of
    that mode, and its run prints the same, ends with the same exit code
    and runs the same commands as the run of the mode in lower case.  Any
    other request is an explicit list: its tokens are pieces of the request
    as it was typed, they are checked against the three lists by equality
    of strings, and the ones that pass come back unchanged; a token that
    differs from a supported one in the case of a letter is refused. *)
Theorem dispatch_ignores_case_tokens_verbatim (w : world) (a : args) :
  let req := requested_archs a in
  (Str.lower req = "native" ->
   run w (main a) = run w (main (with_request a "native"))) /\
  (Str.lower req = "all" ->
   (forall sup minf pf, main_dispatch a sup minf pf = Ok pf) /\
   dispatched w a = dispatched w (with_request a "all") /\
   same_behaviour (run w (main a)) (run w (main (with_request a "all")))) /\
  (Str.lower req = "all-major" ->
   (forall sup minf pf,
      main_dispatch a sup minf pf = Ok (filter_major_archs pf)) /\
   dispatched w a = dispatched w (with_request a "all-major") /\
   same_behaviour (run w (main a))
     (run w (main (with_request a "all-major")))) /\
  (Str.lower req <> "native" -> Str.lower req <> "all" ->
   Str.lower req <> "all-major" ->
   (forall t, In t (parse_requested_archs req) -> substring_of t req) /\
   forall sup minf pf,
     main_dispatch a sup minf pf
     = validate_user_archs (parse_requested_archs req) sup minf pf
         (min_arch a) /\
     forall targets,
       main_dispatch a sup minf pf = Ok targets ->
       targets = parse_requested_archs req /\
       Forall (passes sup minf pf) targets) /\
  validate_user_archs (parse_requested_archs "90A") ["90a"] ["90a"] ["90a"]
    None
  = Die (msg_unsupported "90A" "90a").
Proof.
  intros req. subst req. repeat apply conj.
  - intros H. now rewrite !run_main_native.
  - intros H. split; [|now apply mode_runs_agree; auto].
    intros sup minf pf. unfold main_dispatch. now rewrite H.
  - intros H. split; [|now apply mode_runs_agree; auto].
    intros sup minf pf. unfold main_dispatch. now rewrite H.
  - intros Hn Ha Hm. split.
    + intros t Ht. now apply parse_requested_archs_verbatim in Ht.
    + intros sup minf pf.
      assert (main_dispatch a sup minf pf
              = validate_user_archs (parse_requested_archs (requested_archs a))
                  sup minf pf (min_arch a)) as E.
      { unfold main_dispatch.
        apply String.eqb_neq in Ha, Hm. now rewrite Ha, Hm. }
      split; [exact E|].
      intros targets Ht. rewrite E in Ht.
      apply validate_user_archs_ok in Ht as (-> & _ & Hall). auto.
  - reflexivity.
Qed.

Lemma dispatch_ignores_case_tokens_verbatim_witness :
  let w := toolchain_listing "sm_70
sm_75
sm_80
sm_86
sm_90
sm_90a
" "x86_64" in
  run w (main (request "NATIVE" None)) = run w (main (request "native" None))
  /\ same_behaviour (run w (main (request "All-Major" None)))
                    (run w (main (request "all-major" None)))
  /\ main_dispatch (request "75 90A" None) ["75"; "90a"] ["75"; "90a"]
       ["75"; "90a"]
     = validate_user_archs (parse_requested_archs "75 90A") ["75"; "90a"]
         ["75"; "90a"] ["75"; "90a"] None.
Proof.
  intros w.
  destruct (dispatch_ignores_case_tokens_verbatim w (request "NATIVE" None))
    as (H1 & _).
  destruct (dispatch_ignores_case_tokens_verbatim w (request "All-Major" None))
    as (_ & _ & H2 & _).
  destruct (dispatch_ignores_case_tokens_verbatim w (request "75 90A" None))
    as (_ & _ & _ & H3 & _).
  split; [apply H1; reflexivity|].
  split; [apply H2; reflexivity|].
  apply H3; vm_compute; discriminate.
Defined.

Example mode_demo :
  let w := toolchain_listing "sm_70
sm_75
sm_80
sm_86
sm_90
sm_90a
" "x86_64" in
  stdout (run w (main (request "All-Major" None)))
  = "70-real;80-real;90-real;90-virtual"
  /\ stdout (run w (main (request "75, 90a" None)))
     = "75-real;90a-real;75-virtual"
  /\ how (run w (main (request "75 90A" None)))
     = Died (msg_unsupported "90A" "70, 75, 80, 86, 90, 90a").
Proof. vm_compute. auto. Qed.

Example of_int_demo :
  Str.of_int 80 = "80" /\ Str.of_int 0 = "0" /\ Str.of_int (-3) = "-3"
  /\ Str.of_optional_int None = "None".
Proof. repeat split. Qed.

Example lower_demo : Str.lower "All-Major" = "all-major".
Proof. reflexivity. Qed.

Example is_space_codes :
  filter (fun n => Char.is_space (ascii_of_nat n)) (seq 0 256)
  = [9; 10; 11; 12; 13; 28; 29; 30; 31; 32; 133; 160]%nat.
Proof. vm_compute. reflexivity. Qed.

Example is_digit_codes :
  filter (fun n => Char.is_digit (ascii_of_nat n)) (seq 0 256)
  = seq 48 10.
Proof. vm_compute. reflexivity. Qed.

Example lower_codes :
  filter (fun n => negb (Ascii.eqb (Char.lower (ascii_of_nat n))
                                   (ascii_of_nat n))) (seq 0 256)
  = (seq 65 26 ++ seq 192 23 ++ seq 216 7)%list.
Proof. vm_compute. reflexivity. Qed.

Example sorted_demo :
  sorted ["90a"; "100"; "90"; "9"; "090"]
  = Ok ["9"; "090"; "90"; "90a"; "100"]
  /\ Str.int_of_digits (repeat_char "0" 4300) = Ok 0
  /\ Str.int_of_digits (repeat_char "0" 4301) = Raise "ValueError".
Proof. vm_compute. auto. Qed.

Example fmt_demo :
  generate_sass_ptx_arch_list ["90a"; "80"; "90"; "86"]
  = Ok ["80-real"; "86-real"; "90-real"; "90a-real"; "90-virtual"].
Proof. vm_compute. reflexivity. Qed.

Example parse_demo :
  parse_requested_archs " 75, 86  90a," = ["75"; "86"; "90a"]
  /\ re_split ",a,,b " = [""; "a"; "b"; ""]
  /\ filter_major_archs ["70"; "75"; "0"; "100"; "90a"; "00"] = ["70"; "100"; "00"]
  /\ parse_code_ls "nvcc" (Completed "sm_90a
sm_75
 sm_90
compute_90
sm_75
") = Ok ["75"; "90"; "90a"].
Proof. vm_compute. auto. Qed.

(** * Further properties of the code *)

(** ** Minimum-version filter *)

Lemma keep_min_arch_step arch rest m d :
  re_match_digits arch = Some d -> fits arch ->
  keep_min_arch (arch :: rest) m
  = rbind (keep_min_arch rest m) (fun kept =>
      Ok (if m <=? num arch then arch :: kept else kept)).
Proof.
  intros E H. cbn [keep_min_arch]. rewrite E.
  rewrite (int_of_digits_fits arch d E H). cbn [rbind].
  unfold num. rewrite E.
  destruct (keep_min_arch rest m); cbn [rbind]; try reflexivity.
  now rewrite Z.geb_leb.
Qed.

Lemma keep_min_arch_digits archs m :
  (forall a, In a archs -> re_match_digits a <> None /\ fits a) ->
  keep_min_arch archs m = Ok (filter (fun a => m <=? num a) archs).
Proof.
  induction archs as [|a archs IH]; intros H; [reflexivity|].
  destruct (H a (or_introl eq_refl)) as [Hd Hf].
  destruct (re_match_digits a) as [d|] eqn:E; [|congruence].
  rewrite (keep_min_arch_step a archs m d E Hf).
  rewrite IH by (intros b Hb; apply H; now right).
  reflexivity.
Qed.

(** The first token the comprehension cannot take, with what it raises. *)
Lemma keep_min_arch_first_bad before bad after m :
  (forall a, In a before -> re_match_digits a <> None /\ fits a) ->
  (re_match_digits bad = None ->
   keep_min_arch (before ++ bad :: after) m = Raise "AttributeError") /\
  (~ fits bad ->
   keep_min_arch (before ++ bad :: after) m = Raise "ValueError").
Proof.
  induction before as [|a before IH]; intros H.
  - split; intros Hb; cbn [app keep_min_arch].
    + now rewrite Hb.
    + destruct (re_match_digits bad) as [d|] eqn:E.
      * unfold fits, re_match_digits in *.
        destruct (Str.take_while Char.is_digit bad) as [|c d'] eqn:Et;
          [discriminate|].
        injection E as <-. unfold Str.int_of_digits.
        apply N.nle_gt, N.ltb_lt in Hb. now rewrite Hb.
      * exfalso. apply Hb. unfold fits, re_match_digits in *.
        destruct (Str.take_while Char.is_digit bad); [|discriminate].
        simpl. unfold Str.int_max_str_digits. lia.
  - destruct (H a (or_introl eq_refl)) as [Hd Hf].
    destruct (re_match_digits a) as [d|] eqn:E; [|congruence].
    destruct IH as [IH1 IH2]; [intros b Hb; apply H; now right|].
    split; intros Hb; change ((a :: before) ++ bad :: after)%list
      with (a :: (before ++ bad :: after))%list;
      rewrite (keep_min_arch_step a _ m d E Hf).
    + now rewrite (IH1 Hb).
    + now rewrite (IH2 Hb).
Qed.

Lemma good_or_first_bad archs :
  (forall a, In a archs -> re_match_digits a <> None /\ fits a)
  \/ (exists before bad after,
         archs = (before ++ bad :: after)%list /\
         (forall a, In a before -> re_match_digits a <> None /\ fits a) /\
         (re_match_digits bad = None \/ ~ fits bad)).
Proof.
  assert (forall a rest, re_match_digits a = None \/ ~ fits a ->
            exists before bad after,
              (a :: rest = before ++ bad :: after)%list /\
              (forall b, In b before ->
                         re_match_digits b <> None /\ fits b) /\
              (re_match_digits bad = None \/ ~ fits bad)) as Hhead.
  { intros a rest Hbad. exists [], a, rest.
    split; [reflexivity|]. split; [intros b []|assumption]. }
  induction archs as [|a archs [IH|(before & bad & after & -> & Hb & Hbad)]].
  - left. intros a [].
  - destruct (re_match_digits a) as [d|] eqn:E.
    + destruct (fits_dec a) as [Hf|Hf].
      * left. intros b [<-|Hb]; [split; [congruence|assumption]|auto].
      * right. apply Hhead. now right.
    + right. apply Hhead. now left.
  - destruct (re_match_digits a) as [d|] eqn:E.
    + destruct (fits_dec a) as [Hf|Hf].
      * right. exists (a :: before), bad, after.
        split; [reflexivity|]. split; [|assumption].
        intros b [<-|Hb']; [split; [congruence|assumption]|auto].
      * right. apply Hhead. now right.
    + right. apply Hhead. now left.
Qed.

Lemma keep_min_arch_cases archs m :
  ((forall a, In a archs -> re_match_digits a <> None /\ fits a) /\
   keep_min_arch archs m = Ok (filter (fun a => m <=? num a) archs))
  \/ (exists before bad after exn,
         archs = (before ++ bad :: after)%list /\
         (forall a, In a before -> re_match_digits a <> None /\ fits a) /\
         ((re_match_digits bad = None /\ exn = "AttributeError")
          \/ (re_match_digits bad <> None /\ ~ fits bad
               /\ exn = "ValueError")) /\
         keep_min_arch archs m = Raise exn).
Proof.
  destruct (good_or_first_bad archs)
    as [H|(before & bad & after & -> & Hb & Hbad)].
  - left. split; [assumption|now apply keep_min_arch_digits].
  - right. exists before, bad, after.
    destruct (keep_min_arch_first_bad before bad after m Hb) as [H1 H2].
    destruct (re_match_digits bad) as [d|] eqn:E.
    + exists "ValueError". destruct Hbad as [Hbad|Hbad]; [discriminate|].
      split; [reflexivity|]. split; [assumption|].
      split; [|now apply H2].
      right. split; [discriminate|]. split; [assumption|reflexivity].
    + exists "AttributeError".
      split; [reflexivity|]. split; [assumption|].
      split; [|now apply H1]. left. split; reflexivity.
Qed.

Lemma min_filter_never_dies archs min msg :
  filter_archs_with_min_arch archs min <> Die msg.
Proof.
  unfold filter_archs_with_min_arch.
  destruct min as [m|]; [|discriminate].
  destruct (m <=? 0); [discriminate|].
  destruct (keep_min_arch_cases archs m)
    as [[_ ->]|(? & ? & ? & ? & _ & _ & _ & ->)]; discriminate.
Qed.

(** X1.  Without a minimum, or with one that is zero or negative, the
    minimum-version filter gives its input back, whatever the tokens are.
    With a positive minimum and tokens that all start with a digit and
    have 4300 leading digits at most, it keeps, in their order, exactly
    the tokens whose leading number is the minimum or more. *)
Theorem min_filter_exact (archs : list string) (min : option Z) :
  (min = None \/ (exists m, min = Some m /\ m <= 0) ->
   filter_archs_with_min_arch archs min = Ok archs) /\
  (forall m, min = Some m -> 0 < m ->
     (forall a, In a archs -> re_match_digits a <> None /\ fits a) ->
     filter_archs_with_min_arch archs min
     = Ok (filter (fun a => m <=? num a) archs) /\
     forall a, In a (filter (fun a => m <=? num a) archs) <->
               In a archs /\ m <= num a).
Proof.
  split.
  - intros [->|(m & -> & Hm)]; [reflexivity|].
    unfold filter_archs_with_min_arch.
    now rewrite (proj2 (Z.leb_le m 0) Hm).
  - intros m -> Hm Hd. unfold filter_archs_with_min_arch.
    rewrite (proj2 (Z.leb_gt m 0) Hm). split.
    + now apply keep_min_arch_digits.
    + intros a. now rewrite filter_In, Z.leb_le.
Qed.

Lemma min_filter_exact_witness :
  filter_archs_with_min_arch ["70"; "abc"; "90a"] (Some 0)
  = Ok ["70"; "abc"; "90a"] /\
  filter_archs_with_min_arch ["70"; "75"; "80"; "90a"; "100"] (Some 80)
  = Ok ["80"; "90a"; "100"].
Proof.
  split.
  - apply (proj1 (min_filter_exact ["70"; "abc"; "90a"] (Some 0))).
    right. exists 0. split; [reflexivity|lia].
  - apply (proj2 (min_filter_exact ["70"; "75"; "80"; "90a"; "100"]
                    (Some 80)) 80 eq_refl).
    + lia.
    + intros a Ha. simpl in Ha.
      repeat (destruct Ha as [<-|Ha];
              [split; [discriminate|vm_compute; discriminate]|]).
      contradiction.
Defined.

(** X2.  The minimum-version filter never dies with a message.  It raises
    exactly when the minimum is positive and some token cannot be taken,
    and what it raises is decided by the first such token of the list:
    [AttributeError] when that token does not start with a digit,
    [ValueError] when it has more than 4300 leading digits. *)
Theorem min_filter_raises_iff (archs : list string) (min : option Z)
  (exn : string) :
  (filter_archs_with_min_arch archs min = Raise exn <->
   exists m, min = Some m /\ 0 < m /\
     exists before bad after,
       archs = (before ++ bad :: after)%list /\
       (forall a, In a before -> re_match_digits a <> None /\ fits a) /\
       ((re_match_digits bad = None /\ exn = "AttributeError")
        \/ (re_match_digits bad <> None /\ ~ fits bad
             /\ exn = "ValueError"))) /\
  (forall msg, filter_archs_with_min_arch archs min <> Die msg).
Proof.
  split; [|intros msg; apply min_filter_never_dies].
  unfold filter_archs_with_min_arch.
  destruct min as [m|].
  2:{ split; [discriminate|]. intros (m & E & _). discriminate. }
  destruct (Z.leb_spec m 0) as [Hm|Hm].
  { split; [discriminate|]. intros (m' & E & Hm' & _).
    injection E as <-. lia. }
  split.
  - intros Hr. exists m. split; [reflexivity|]. split; [assumption|].
    destruct (keep_min_arch_cases archs m)
      as [[_ Hok]|(before & bad & after & e & E & Hb & Hbad & Hraise)].
    + rewrite Hok in Hr. discriminate.
    + rewrite Hraise in Hr. injection Hr as <-.
      exists before, bad, after. auto.
  - intros (m' & E & _ & before & bad & after & -> & Hb & Hbad).
    injection E as <-.
    destruct (keep_min_arch_first_bad before bad after m Hb) as [H1 H2].
    destruct Hbad as [[Hn ->]|(_ & Hn & ->)]; auto.
Qed.

Lemma min_filter_raises_iff_witness :
  filter_archs_with_min_arch ["80"; "a90"; "90"] (Some 80)
  = Raise "AttributeError" /\
  filter_archs_with_min_arch [repeat_char "9" 4301; "a90"] (Some 80)
  = Raise "ValueError".
Proof.
  split.
  - apply (proj1 (min_filter_raises_iff ["80"; "a90"; "90"] (Some 80)
                    "AttributeError")).
    exists 80. split; [reflexivity|]. split; [lia|].
    exists ["80"], "a90", ["90"]. split; [reflexivity|]. split.
    + intros a [<-|[]]. split; [discriminate|vm_compute; discriminate].
    + left. split; reflexivity.
  - apply (proj1 (min_filter_raises_iff [repeat_char "9" 4301; "a90"]
                    (Some 80) "ValueError")).
    exists 80. split; [reflexivity|]. split; [lia|].
    exists [], (repeat_char "9" 4301), ["a90"]. split; [reflexivity|]. split.
    + intros a [].
    + right. split; [vm_compute; discriminate|].
      split; [|reflexivity]. vm_compute. intros H. now apply H.
Defined.

(** X3.  Filtering a second time with the same minimum changes nothing:
    the second pass gives what the first gave, a raised exception
    included. *)
Theorem min_filter_idempotent (archs : list string) (min : option Z) :
  rbind (filter_archs_with_min_arch archs min)
        (fun kept => filter_archs_with_min_arch kept min)
  = filter_archs_with_min_arch archs min.
Proof.
  unfold filter_archs_with_min_arch.
  destruct min as [m|]; [|reflexivity].
  destruct (m <=? 0) eqn:Hm; cbn [rbind]; [reflexivity|].
  destruct (keep_min_arch_cases archs m)
    as [[Hd ->]|(? & ? & ? & ? & _ & _ & _ & ->)]; [|reflexivity].
  cbn [rbind].
  rewrite keep_min_arch_digits
    by (intros a Ha; apply filter_In in Ha as [Ha _]; auto).
  f_equal. induction archs as [|a archs IH]; simpl; [reflexivity|].
  destruct (m <=? num a) eqn:E; simpl.
  - rewrite E. f_equal. apply IH. intros b Hb. apply Hd. now right.
  - apply IH. intros b Hb. apply Hd. now right.
Qed.

(** ** Canonical ordering and the sort *)

Lemma key_ltb_arch_ltb a b ka kb :
  get_arch_sort_key a = Ok ka -> get_arch_sort_key b = Ok kb ->
  key_ltb ka kb = arch_ltb a b.
Proof.
  intros Ha Hb.
  apply get_arch_sort_key_ok in Ha as [_ ->].
  apply get_arch_sort_key_ok in Hb as [_ ->]. reflexivity.
Qed.

(** X4.  On the tokens that have a sort key, so those with 4300 leading
    digits at most, the comparison of keys is a strict total order: of two
    such tokens either the key of one is smaller than the key of the
    other or they are the same token, never two of these at once, and
    being smaller is transitive. *)
Theorem canonical_order_strict_total (a b c : string) (ka kb kc : Z * string) :
  get_arch_sort_key a = Ok ka -> get_arch_sort_key b = Ok kb ->
  get_arch_sort_key c = Ok kc ->
  (key_ltb ka kb = true \/ a = b \/ key_ltb kb ka = true) /\
  (key_ltb ka kb = true -> a <> b /\ key_ltb kb ka = false) /\
  (key_ltb ka kb = true -> key_ltb kb kc = true -> key_ltb ka kc = true).
Proof.
  intros Ha Hb Hc.
  rewrite (key_ltb_arch_ltb a b ka kb Ha Hb), (key_ltb_arch_ltb b a kb ka Hb Ha),
    (key_ltb_arch_ltb b c kb kc Hb Hc), (key_ltb_arch_ltb a c ka kc Ha Hc).
  split; [|split].
  - destruct (arch_ltb a b) eqn:Hab; [now left|].
    destruct (arch_ltb b a) eqn:Hba; [now right; right|].
    right. left. now apply arch_le_antisym.
  - intros H. split; [|now apply arch_ltb_asym].
    intros ->. rewrite arch_ltb_irrefl in H. discriminate.
  - apply arch_ltb_trans.
Qed.

Lemma canonical_order_strict_total_witness :
  key_ltb (9, "9") (90, "90a") = true /\ "90" <> "90a"
  /\ key_ltb (90, "90a") (90, "90") = false.
Proof.
  destruct (canonical_order_strict_total "90" "90a" "100"
              (90, "90") (90, "90a") (100, "100") eq_refl eq_refl eq_refl)
    as (_ & H2 & _).
  destruct (canonical_order_strict_total "9" "90" "90a"
              (9, "9") (90, "90") (90, "90a") eq_refl eq_refl eq_refl)
    as (_ & _ & H3).
  split; [apply H3; reflexivity|]. apply H2. reflexivity.
Defined.

Lemma take_while_app p d : forall s,
  Str.forallb p d = true ->
  Str.take_while p s = "" ->
  Str.take_while p (d ++ s) = d.
Proof.
  induction d as [|c d IH]; simpl; intros s Hd Hs; [assumption|].
  apply andb_true_iff in Hd as [Hc Hd]. rewrite Hc. f_equal. now apply IH.
Qed.

Lemma string_ltb_append d s : s <> "" -> String.ltb d (d ++ s) = true.
Proof.
  intros Hs. unfold String.ltb.
  induction d as [|c d IH]; simpl.
  - destruct s; [congruence|reflexivity].
  - now rewrite ascii_compare_refl.
Qed.

(** X5.  The number in front of a token decides first: of two tokens with
    a key the one with the smaller leading number has the smaller key,
    whatever the strings are.  Among tokens with the same number the
    strings decide: a string of 4300 digits at most has the same number
    as, and a smaller key than, the same digits followed by a suffix that
    does not start with a digit. *)
Theorem number_first_then_bare_before_suffixed
  (a b d s : string) (ka kb : Z * string) :
  (get_arch_sort_key a = Ok ka -> get_arch_sort_key b = Ok kb ->
   fst ka < fst kb -> key_ltb ka kb = true) /\
  (d <> "" -> Str.forallb Char.is_digit d = true ->
   (N.of_nat (String.length d) <= Str.int_max_str_digits)%N ->
   s <> "" -> Str.take_while Char.is_digit s = "" ->
   exists n,
     get_arch_sort_key d = Ok (n, d) /\
     get_arch_sort_key (d ++ s) = Ok (n, d ++ s) /\
     key_ltb (n, d) (n, d ++ s) = true).
Proof.
  split.
  - intros Ha Hb H. unfold key_ltb. apply Z.ltb_lt in H. now rewrite H.
  - intros Hd Hdig Hlen Hs Hnd.
    pose proof (take_while_app _ d s Hdig Hnd) as E1.
    pose proof (take_while_app _ d "" Hdig eq_refl) as E0.
    rewrite append_nil_r in E0.
    assert (fits d) as Hfd by (unfold fits; now rewrite E0).
    assert (fits (d ++ s)) as Hfds by (unfold fits; now rewrite E1).
    assert (num (d ++ s) = num d) as E.
    { unfold num, re_match_digits. rewrite E1, E0. reflexivity. }
    exists (num d).
    split; [now apply get_arch_sort_key_fits|].
    split; [rewrite <- E; now apply get_arch_sort_key_fits|].
    change (key_ltb (num d, d) (num d, d ++ s))
      with (key_ltb (num d, d) (num d, d ++ s)).
    unfold key_ltb. cbn [fst snd].
    rewrite Z.ltb_irrefl, Z.eqb_refl, string_ltb_append by assumption.
    reflexivity.
Qed.

Lemma number_first_then_bare_before_suffixed_witness :
  key_ltb (90, "90a") (100, "100") = true /\
  exists n, get_arch_sort_key "90" = Ok (n, "90") /\
            get_arch_sort_key "90a" = Ok (n, "90a") /\
            key_ltb (n, "90") (n, "90a") = true.
Proof.
  destruct (number_first_then_bare_before_suffixed "90a" "100" "90" "a"
              (90, "90a") (100, "100")) as (H1 & H2).
  split; [apply H1; reflexivity|].
  apply H2; try reflexivity; try discriminate.
Defined.

Lemma Permutation_fits archs archs' :
  Permutation archs archs' ->
  (Forall fits archs -> Forall fits archs') /\
  (Exists (fun a => ~ fits a) archs ->
   Exists (fun a => ~ fits a) archs').
Proof.
  intros HP. split.
  - apply Permutation_Forall, HP.
  - rewrite !Exists_exists. intros (x & Hx & Hn).
    exists x. split; [now apply (Permutation_in _ HP)|assumption].
Qed.

(** X6.  The sort raises [ValueError] when a token has more than 4300
    leading digits.  Else it gives its input rearranged, duplicates kept,
    in canonical order, and sorting that again changes nothing.  In both
    cases what the sort gives depends on the tokens and not on the order
    they come in. *)
Theorem sort_is_canonical (archs : list string) :
  ((exists a, In a archs /\ ~ fits a) -> sorted archs = Raise "ValueError") /\
  ((forall a, In a archs -> fits a) ->
   exists ordered,
     sorted archs = Ok ordered /\
     Permutation ordered archs /\
     StronglySorted arch_le ordered /\
     List.length ordered = List.length archs /\
     sorted ordered = Ok ordered) /\
  (forall archs', Permutation archs archs' -> sorted archs' = sorted archs).
Proof.
  split; [|split].
  - intros H. now apply sorted_too_long, Exists_not_fits.
  - intros H. apply Forall_fits in H. exists (in_order archs).
    split; [now apply sorted_fits|].
    split; [apply in_order_perm|]. split; [apply in_order_sorted|].
    split; [apply Permutation_length, in_order_perm|].
    rewrite sorted_fits
      by (apply (Permutation_Forall (Permutation_sym (in_order_perm archs)));
          assumption).
    f_equal. apply in_order_id, StronglySorted_Sorted, in_order_sorted.
  - intros archs' HP. destruct (Permutation_fits _ _ HP) as [H1 H2].
    destruct (fits_all_or_not archs) as [H|H].
    + rewrite (sorted_fits _ H), (sorted_fits _ (H1 H)). f_equal.
      symmetry. now apply in_order_order_independent.
    + now rewrite (sorted_too_long _ H), (sorted_too_long _ (H2 H)).
Qed.

Lemma sort_is_canonical_witness :
  sorted ["90"; "100"; "90a"; "75"; "90"]
  = sorted ["100"; "90a"; "90"; "75"; "90"] /\
  exists ordered, sorted ["90"; "100"; "90a"] = Ok ordered.
Proof.
  split.
  - destruct (sort_is_canonical ["100"; "90a"; "90"; "75"; "90"])
      as (_ & _ & H).
    apply H. apply perm_trans with ("100" :: "90" :: "90a" :: ["75"; "90"]).
    + apply perm_skip, perm_swap.
    + apply perm_swap.
  - destruct (sort_is_canonical ["90"; "100"; "90a"]) as (_ & H & _).
    destruct H as (ordered & H & _); [all_fit|]. now exists ordered.
Defined.

(** ** Locator and prober *)

Lemma parse_code_ls_ok nvcc r archs :
  parse_code_ls nvcc r = Ok archs ->
  exists stdout,
    r = Completed stdout /\
    collect_sm (code_ls_lines stdout) [] <> [] /\
    Forall fits (collect_sm (code_ls_lines stdout) []) /\
    archs = in_order (collect_sm (code_ls_lines stdout) []).
Proof.
  destruct r as [| |stdout]; try discriminate. intros H. exists stdout.
  destruct (parse_code_ls_cases nvcc stdout)
    as [[_ Hp]|[(Hraw & Hfit & Hp)|(_ & _ & Hp)]];
    rewrite Hp in H; try discriminate.
  injection H as <-. auto.
Qed.

Lemma parse_code_ls_fits nvcc r archs :
  parse_code_ls nvcc r = Ok archs -> Forall fits archs.
Proof.
  intros H. apply parse_code_ls_ok in H as (stdout & _ & _ & Hfit & ->).
  apply (Permutation_Forall (Permutation_sym (in_order_perm _)) Hfit).
Qed.

Lemma parse_code_ls_sorted_nodup nvcc r archs :
  parse_code_ls nvcc r = Ok archs ->
  archs <> [] /\ NoDup archs /\ StronglySorted arch_le archs.
Proof.
  intros H. apply parse_code_ls_ok in H as (stdout & _ & Hne & _ & ->).
  pose proof (collect_sm_NoDup (code_ls_lines stdout) [] (NoDup_nil _)) as Hnd.
  split; [now apply in_order_nonempty|].
  split; [apply (Permutation_NoDup
                   (Permutation_sym (in_order_perm _)) Hnd)|].
  apply in_order_sorted.
Qed.

(** X7.  What the prober returns is never empty, holds no token twice and
    is in canonical order; and it depends on the set of identifiers the
    listing names only, not on the order of the lines, on lines repeated or
    on the other lines. *)
Theorem prober_result_canonical (nvcc stdout : string) (archs : list string) :
  parse_code_ls nvcc (Completed stdout) = Ok archs ->
  archs <> [] /\ NoDup archs /\ StronglySorted arch_le archs /\
  forall nvcc' stdout',
    (forall a,
       (exists line, In line (code_ls_lines stdout) /\
                     Str.strip line = "sm_" ++ a) <->
       (exists line, In line (code_ls_lines stdout') /\
                     Str.strip line = "sm_" ++ a)) ->
    parse_code_ls nvcc' (Completed stdout') = Ok archs.
Proof.
  intros H.
  destruct (parse_code_ls_sorted_nodup _ _ _ H) as (H1 & H2 & H3).
  split; [assumption|]. split; [assumption|]. split; [assumption|].
  clear H1 H2 H3.
  pose proof (collect_sm_NoDup (code_ls_lines stdout) [] (NoDup_nil _)) as Hnd.
  pose proof (collect_sm_In (code_ls_lines stdout) []) as HIn.
  apply parse_code_ls_ok in H as (stdout0 & E0 & Hne & Hfit & ->).
  injection E0 as <-.
  intros nvcc' stdout' Hsame.
  pose proof (collect_sm_NoDup (code_ls_lines stdout') [] (NoDup_nil _)) as Hnd'.
  pose proof (collect_sm_In (code_ls_lines stdout') []) as HIn'.
  assert (Permutation (collect_sm (code_ls_lines stdout) [])
                      (collect_sm (code_ls_lines stdout') [])) as HP.
  { apply NoDup_Permutation; try assumption.
    intros a. rewrite HIn, HIn'. simpl. specialize (Hsame a). tauto. }
  destruct (parse_code_ls_cases nvcc' stdout')
    as [[Hraw Hp]|[(Hraw & Hfit' & Hp)|(Hraw & Hlong & Hp)]]; rewrite Hp.
  - rewrite Hraw in HP. apply Permutation_sym, Permutation_nil in HP.
    congruence.
  - f_equal. symmetry. now apply in_order_order_independent.
  - exfalso. apply Exists_exists in Hlong as (x & Hx & Hn). apply Hn.
    rewrite Forall_forall in Hfit. apply Hfit.
    now apply (Permutation_in _ (Permutation_sym HP)).
Qed.

Lemma prober_result_canonical_witness :
  parse_code_ls "/opt/cuda/bin/nvcc" (Completed "sm_90a
sm_75
note
sm_90a") = Ok ["75"; "90a"].
Proof.
  destruct (prober_result_canonical "nvcc" "sm_75
sm_90a" ["75"; "90a"] eq_refl) as (_ & _ & _ & H).
  apply H. intros a. split; intros (line & Hl & E); vm_compute in Hl.
  - destruct Hl as [<-|[<-|[]]]; vm_compute in E; injection E as <-.
    + exists "sm_75". split; [vm_compute; auto|reflexivity].
    + exists "sm_90a". split; [vm_compute; auto|reflexivity].
  - destruct Hl as [<-|[<-|[<-|[<-|[]]]]]; vm_compute in E;
      try discriminate E; injection E as <-.
    + exists "sm_90a". split; [vm_compute; auto|reflexivity].
    + exists "sm_75". split; [vm_compute; auto|reflexivity].
    + exists "sm_90a". split; [vm_compute; auto|reflexivity].
Defined.



Lemma collect_sm_none lines :
  (forall line, In line lines ->
                Str.startswith "sm_" (Str.strip line) = false) ->
  collect_sm lines [] = [].
Proof.
  intros Hnone. pose proof (collect_sm_In lines []) as HIn.
  destruct (collect_sm lines []) as [|x raw]; [reflexivity|].
  destruct (proj1 (HIn x) (or_introl eq_refl)) as [[]|(line & Hl & E)].
  assert (Str.startswith "sm_" (Str.strip line) = true)
    by (apply startswith_spec; eauto).
  rewrite (Hnone line Hl) in H. discriminate.
Qed.

(** X9.  When the command cannot be started, when it ends with an error,
    or when its listing has no line starting with [sm_], a run that is not
    the [native] one dies: nothing is printed, the exit code is 1, and the
    message is the one of that failure, with the path of the toolchain or
    with what the command wrote to its error stream. *)
Theorem probe_failure_is_fatal (w : world) (a : args) :
  Str.lower (requested_archs a) <> "native" ->
  let path := located_nvcc w a in
  let r := run w (main a) in
  (subprocess_run w [path; "-code-ls"] = FileNotFoundError ->
   how r = Died ("nvcc command '" ++ path ++ "' not found or not executable.")
   /\ stdout r = "" /\ exit_code (how r) = 1) /\
  (forall stderr,
     subprocess_run w [path; "-code-ls"] = CalledProcessError stderr ->
     how r = Died ("Command '" ++ path ++ " -code-ls' failed:"
                     ++ String Char.LF stderr)
     /\ stdout r = "" /\ exit_code (how r) = 1) /\
  (forall listing,
     subprocess_run w [path; "-code-ls"] = Completed listing ->
     (forall line, In line (code_ls_lines listing) ->
                   Str.startswith "sm_" (Str.strip line) = false) ->
     how r = Died "Could not parse any architectures (sm_XX) from 'nvcc -code-ls' output."
     /\ stdout r = "" /\ exit_code (how r) = 1).
Proof.
  intros Hn path r. subst r. rewrite (run_main_probing w a Hn).
  unfold printed, dispatched, probed. fold path.
  split; [|split].
  - intros ->. simpl. auto.
  - intros stderr ->. simpl. rewrite !append_assoc. simpl. auto.
  - intros listing -> Hnone. unfold parse_code_ls.
    rewrite (collect_sm_none _ Hnone). simpl. auto.
Qed.

Lemma probe_failure_is_fatal_witness :
  how (run (no_toolchain "x86_64") (main (request "all" None)))
  = Died "nvcc command '/usr/local/cuda/bin/nvcc' not found or not executable."
  /\ how (run (toolchain_listing "compute_90
lto_90" "x86_64") (main (request "90" None)))
     = Died "Could not parse any architectures (sm_XX) from 'nvcc -code-ls' output.".
Proof.
  split.
  - destruct (probe_failure_is_fatal (no_toolchain "x86_64")
                (request "all" None)) as (H & _).
    + vm_compute. discriminate.
    + destruct (H eq_refl) as (H1 & _). exact H1.
  - destruct (probe_failure_is_fatal (toolchain_listing "compute_90
lto_90" "x86_64") (request "90" None)) as (_ & _ & H).
    + vm_compute. discriminate.
    + destruct (H "compute_90
lto_90" eq_refl) as (H1 & _); [|exact H1].
      intros line Hl. vm_compute in Hl.
      destruct Hl as [<-|[<-|[]]]; reflexivity.
Defined.

(** ** Request parsing *)

Lemma split_runs_sep_free s : forall in_run t,
  In t (split_runs in_run s) ->
  Str.forallb (fun c => negb (is_sep c)) t = true.
Proof.
  induction s as [|c s IH]; intros in_run t; simpl.
  - intros [<-|[]]. reflexivity.
  - destruct (is_sep c) eqn:Hc.
    + destruct in_run; [apply IH|]. intros [<-|H]; [reflexivity|eauto].
    + destruct (split_runs_head s) as (piece & pieces & after & E & _).
      pose proof (IH false) as IH'. rewrite E in *.
      intros [<-|H]; [|apply IH'; now right].
      simpl. rewrite Hc. simpl. apply IH'. now left.
Qed.

Lemma split_runs_all_sep s : forall in_run t,
  Str.forallb is_sep s = true -> In t (split_runs in_run s) -> t = "".
Proof.
  induction s as [|c s IH]; intros in_run t; simpl.
  - intros _ [<-|[]]. reflexivity.
  - rewrite andb_true_iff. intros [Hc Hs]. rewrite Hc.
    destruct in_run; [now apply IH|].
    intros [<-|H]; [reflexivity|eauto].
Qed.

Lemma split_runs_some_token s : forall in_run,
  Str.forallb is_sep s = false ->
  exists t, In t (split_runs in_run s) /\ t <> "".
Proof.
  induction s as [|c s IH]; intros in_run; simpl; [discriminate|].
  destruct (is_sep c) eqn:Hc; simpl.
  - intros Hs. destruct (IH true Hs) as (t & Ht & Hne).
    exists t. split; [|assumption]. destruct in_run; [assumption|now right].
  - intros _. destruct (split_runs_head s) as (piece & pieces & after & E & _).
    rewrite E. exists (String c piece). split; [now left|discriminate].
Qed.

Lemma forallb_rev_onto p s : forall acc,
  Str.forallb p (Str.rev_onto s acc) = Str.forallb p s && Str.forallb p acc.
Proof.
  induction s as [|c s IH]; intros acc; simpl; [reflexivity|].
  rewrite IH. simpl. now rewrite andb_assoc, (andb_comm (Str.forallb p s)).
Qed.

Lemma forallb_rev p s : Str.forallb p (Str.rev s) = Str.forallb p s.
Proof. unfold Str.rev. rewrite forallb_rev_onto. simpl. apply andb_true_r. Qed.

Lemma is_space_is_sep c : Char.is_space c = true -> is_sep c = true.
Proof. unfold is_sep. now intros ->. Qed.

Lemma forallb_impl (p q : ascii -> bool) s :
  (forall c, p c = true -> q c = true) ->
  Str.forallb p s = true -> Str.forallb q s = true.
Proof.
  intros H. induction s as [|c s IH]; simpl; [reflexivity|].
  rewrite !andb_true_iff. intros [Hc Hs]. auto.
Qed.

(** What [strip] removes on both sides is white space. *)
Lemma strip_spaces s :
  exists before after,
    s = before ++ Str.strip s ++ after /\
    Str.forallb Char.is_space before = true /\
    Str.forallb Char.is_space after = true.
Proof.
  unfold Str.strip.
  set (t := Str.drop_while Char.is_space s).
  exists (Str.take_while Char.is_space s),
         (Str.rev (Str.take_while Char.is_space (Str.rev t))).
  split; [|split].
  - rewrite <- rev_app, <- take_drop_while, rev_involutive.
    apply take_drop_while.
  - apply take_while_forallb.
  - rewrite forallb_rev. apply take_while_forallb.
Qed.

Lemma strip_all_sep s :
  Str.forallb is_sep (Str.strip s) = Str.forallb is_sep s.
Proof.
  destruct (strip_spaces s) as (before & after & E & Hb & Ha).
  rewrite E at 2. rewrite !forallb_app.
  rewrite (forallb_impl _ _ before is_space_is_sep Hb).
  rewrite (forallb_impl _ _ after is_space_is_sep Ha).
  now rewrite andb_true_r.
Qed.

(** X10.  Every token of a parsed request is a piece of the request, is
    not empty and holds neither white space nor comma; and the parse
    gives no token at all exactly when the request is empty or made of
    white space and commas only. *)
Theorem parsed_tokens_clean (req : string) :
  (forall t, In t (parse_requested_archs req) ->
             t <> "" /\
             Str.forallb (fun c => negb (is_sep c)) t = true /\
             substring_of t req) /\
  (parse_requested_archs req = [] <-> Str.forallb is_sep req = true).
Proof.
  split.
  - intros t Ht.
    destruct (parse_requested_archs_verbatim req t Ht) as [Hsub Hne].
    repeat split; try assumption.
    unfold parse_requested_archs in Ht.
    destruct (String.eqb req ""); [contradiction|].
    apply filter_In in Ht as [Ht _]. now apply split_runs_sep_free in Ht.
  - unfold parse_requested_archs.
    destruct (String.eqb_spec req "") as [->|Hreq]; [now split|].
    unfold re_split. rewrite <- strip_all_sep. split.
    + intros Hnil.
      destruct (Str.forallb is_sep (Str.strip req)) eqn:E; [reflexivity|].
      destruct (split_runs_some_token _ false E) as (t & Ht & Hne).
      assert (In t (filter nonempty (split_runs false (Str.strip req)))) as Hin.
      { apply filter_In. split; [assumption|].
        unfold nonempty. now apply negb_true_iff, String.eqb_neq. }
      rewrite Hnil in Hin. contradiction.
    + intros Hall.
      destruct (filter nonempty (split_runs false (Str.strip req)))
        as [|t ts] eqn:E; [reflexivity|].
      assert (In t (filter nonempty (split_runs false (Str.strip req)))) as Hin
          by (rewrite E; now left).
      apply filter_In in Hin as [Hin Hne].
      apply (split_runs_all_sep _ _ _ Hall) in Hin. subst. discriminate.
Qed.

Lemma parsed_tokens_clean_witness :
  parse_requested_archs " ,,  , " = [] /\
  forall t, In t (parse_requested_archs "75, 86 ,90a") -> t <> "".
Proof.
  split.
  - apply (proj2 (parsed_tokens_clean " ,,  , ")). reflexivity.
  - intros t Ht.
    apply (proj1 (parsed_tokens_clean "75, 86 ,90a") t Ht).
Defined.

Lemma split_runs_token t : forall rest,
  Str.forallb (fun c => negb (is_sep c)) t = true ->
  exists piece pieces,
    split_runs false rest = piece :: pieces /\
    split_runs false (t ++ rest) = (t ++ piece) :: pieces.
Proof.
  induction t as [|c t IH]; intros rest; simpl.
  - intros _. destruct (split_runs_head rest) as (p & ps & _ & E & _).
    exists p, ps. auto.
  - rewrite andb_true_iff, negb_true_iff. intros [Hc Ht]. rewrite Hc.
    destruct (IH rest Ht) as (p & ps & E & E'). rewrite E'.
    exists p, ps. auto.
Qed.

Lemma split_runs_token_any_run t rest in_run :
  t <> "" -> Str.forallb (fun c => negb (is_sep c)) t = true ->
  split_runs in_run (t ++ rest) = split_runs false (t ++ rest).
Proof.
  destruct t as [|c t]; [congruence|]. simpl.
  rewrite andb_true_iff, negb_true_iff. intros _ [-> _]. reflexivity.
Qed.

Lemma split_runs_skip_seps sep : forall s,
  Str.forallb is_sep sep = true ->
  split_runs true (sep ++ s) = split_runs true s.
Proof.
  induction sep as [|c sep IH]; intros s; simpl; [reflexivity|].
  rewrite andb_true_iff. intros [-> Hs]. now apply IH.
Qed.

Lemma split_runs_join sep tokens :
  sep <> "" -> Str.forallb is_sep sep = true ->
  tokens <> [] ->
  (forall t, In t tokens ->
             t <> "" /\ Str.forallb (fun c => negb (is_sep c)) t = true) ->
  forall in_run, split_runs in_run (Str.join sep tokens) = tokens.
Proof.
  intros Hsep Hseps.
  induction tokens as [|t [|t2 more] IH]; intros Hne Htok in_run;
    [congruence| |].
  - destruct (Htok t (or_introl eq_refl)) as [Ht Hfree]. simpl.
    rewrite <- (append_nil_r t) at 1.
    rewrite (split_runs_token_any_run t "" in_run Ht Hfree).
    destruct (split_runs_token t "" Hfree) as (p & ps & E & E').
    rewrite E'. simpl in E. injection E as <- <-. now rewrite append_nil_r.
  - destruct (Htok t (or_introl eq_refl)) as [Ht Hfree].
    change (Str.join sep (t :: t2 :: more))
      with (t ++ sep ++ Str.join sep (t2 :: more)).
    rewrite (split_runs_token_any_run t _ in_run Ht Hfree).
    destruct (split_runs_token t (sep ++ Str.join sep (t2 :: more)) Hfree)
      as (p & ps & E & E').
    rewrite E'. clear E'.
    destruct sep as [|c sep]; [congruence|].
    simpl in Hseps. apply andb_true_iff in Hseps as [Hc Hseps'].
    simpl in E. rewrite Hc in E.
    rewrite (split_runs_skip_seps sep _ Hseps') in E.
    rewrite IH in E; [|discriminate|intros u Hu; apply Htok; now right].
    injection E as <- <-. now rewrite append_nil_r.
Qed.

Lemma strip_id s :
  Str.drop_while Char.is_space s = s ->
  Str.drop_while Char.is_space (Str.rev s) = Str.rev s ->
  Str.strip s = s.
Proof.
  intros H1 H2. unfold Str.strip. rewrite H1, H2. apply rev_involutive.
Qed.

Lemma drop_while_token p t rest :
  t <> "" -> Str.forallb (fun c => negb (p c)) t = true ->
  Str.drop_while p (t ++ rest) = t ++ rest.
Proof.
  destruct t as [|c t]; [congruence|]. simpl.
  rewrite andb_true_iff, negb_true_iff. intros _ [-> _]. reflexivity.
Qed.

Lemma join_ends_with_last sep tokens t :
  exists before, Str.join sep (tokens ++ [t])%list = before ++ t.
Proof.
  induction tokens as [|u tokens (before & IH)].
  - now exists "".
  - destruct tokens as [|v tokens]; simpl in *.
    + exists (u ++ sep). now rewrite append_assoc.
    + exists (u ++ sep ++ before). rewrite IH. now rewrite !append_assoc.
Qed.

Lemma not_sep_not_space t :
  Str.forallb (fun c => negb (is_sep c)) t = true ->
  Str.forallb (fun c => negb (Char.is_space c)) t = true.
Proof.
  apply forallb_impl. intros c. rewrite !negb_true_iff. unfold is_sep.
  now intros [H _]%orb_false_iff.
Qed.

(** X11.  Parsing undoes joining: tokens that are not empty and hold
    neither white space nor comma, joined by any separator made of white
    space and commas, are parsed back to the same tokens, in order and
    with their repetitions. *)
Theorem parse_join_round_trip (sep : string) (tokens : list string) :
  sep <> "" -> Str.forallb is_sep sep = true ->
  (forall t, In t tokens ->
             t <> "" /\ Str.forallb (fun c => negb (is_sep c)) t = true) ->
  parse_requested_archs (Str.join sep tokens) = tokens.
Proof.
  intros Hsep Hseps Htok.
  destruct tokens as [|t0 tokens0] eqn:Etok; [reflexivity|].
  rewrite <- Etok in *.
  assert (tokens <> []) as Hne by (rewrite Etok; discriminate).
  assert (Str.strip (Str.join sep tokens) = Str.join sep tokens) as Hstrip.
  { apply strip_id.
    - destruct (Htok t0) as [H0 Hf0]; [rewrite Etok; now left|].
      assert (exists rest, Str.join sep tokens = t0 ++ rest) as [rest ->].
      { rewrite Etok. destruct tokens0; simpl.
        - exists "". now rewrite append_nil_r.
        - eexists. reflexivity. }
      apply drop_while_token; [assumption|now apply not_sep_not_space].
    - destruct (exists_last Hne) as (front & tl & Elast).
      destruct (Htok tl) as [Hl Hfl];
        [rewrite Elast; apply in_or_app; right; now left|].
      rewrite Elast. destruct (join_ends_with_last sep front tl) as [before ->].
      rewrite rev_app. apply drop_while_token.
      + intros E. apply Hl. apply rev_inj. now rewrite E.
      + rewrite forallb_rev. now apply not_sep_not_space. }
  unfold parse_requested_archs.
  destruct (String.eqb_spec (Str.join sep tokens) "") as [E|_].
  - exfalso. destruct (Htok t0) as [H0 _]; [rewrite Etok; now left|].
    rewrite Etok in E. destruct tokens0; simpl in E.
    + congruence.
    + destruct t0; [congruence|discriminate].
  - rewrite Hstrip. unfold re_split.
    rewrite (split_runs_join sep tokens Hsep Hseps Hne Htok).
    apply forallb_filter_id. apply forallb_forall. intros t Ht.
    unfold nonempty. apply negb_true_iff, String.eqb_neq. now apply Htok.
Qed.

Lemma parse_join_round_trip_witness :
  parse_requested_archs (Str.join ", " ["75"; "86"; "90a"; "86"])
  = ["75"; "86"; "90a"; "86"].
Proof.
  apply (parse_join_round_trip ", " ["75"; "86"; "90a"; "86"]).
  - discriminate.
  - reflexivity.
  - intros t Ht. simpl in Ht.
    repeat (destruct Ht as [<-|Ht]; [split; [discriminate|reflexivity]|]).
    contradiction.
Defined.

(** ** The filter chain *)

Lemma major_not_igpu arch :
  re_match_major arch = true -> mem arch igpu_archs = false.
Proof.
  intros H. destruct (mem arch igpu_archs) eqn:E; [|reflexivity].
  apply mem_In in E. simpl in E.
  destruct E as [<-|[<-|[<-|[<-|[]]]]]; vm_compute in H; discriminate H.
Qed.

Lemma filter_absorb (f g : string -> bool) l :
  (forall a, f a = true -> g a = true) ->
  filter f (filter g l) = filter f l /\ filter g (filter f l) = filter f l.
Proof.
  intros H. induction l as [|a l [IH1 IH2]]; simpl; [auto|].
  destruct (f a) eqn:Ef.
  - rewrite (H a Ef). simpl. rewrite Ef, (H a Ef). now rewrite IH1, IH2.
  - destruct (g a); simpl; rewrite ?Ef; auto.
Qed.

(** X12.  None of the tokens the platform filter takes out is a major
    version, so the major-only filter gives the same list with or without
    the platform filter, in front of it or behind it, on every machine. *)
Theorem major_filter_absorbs_platform_filter
  (machine : string) (archs : list string) :
  filter_major_archs (filter_archs_for_platform machine archs)
  = filter_major_archs archs /\
  filter_archs_for_platform machine (filter_major_archs archs)
  = filter_major_archs archs.
Proof.
  unfold filter_archs_for_platform, filter_major_archs.
  destruct (negb (mem (Str.lower machine) ["x86_64"; "amd64"]));
    [split; reflexivity|].
  apply filter_absorb. intros a Ha. now rewrite (major_not_igpu a Ha).
Qed.

Lemma StronglySorted_filter_arch (f : string -> bool) l :
  StronglySorted arch_le l -> StronglySorted arch_le (filter f l).
Proof.
  induction 1 as [|a l Hs IH Ha]; simpl; [constructor|].
  destruct (f a); [|assumption]. constructor; [assumption|].
  rewrite Forall_forall in *. intros b Hb. apply Ha.
  now apply filter_In in Hb as [Hb _].
Qed.

Lemma min_filter_is_filter archs min kept :
  filter_archs_with_min_arch archs min = Ok kept ->
  exists keep : string -> bool, kept = filter keep archs.
Proof.
  unfold filter_archs_with_min_arch.
  assert (archs = filter (fun _ => true) archs) as Hid
      by (symmetry; apply forallb_filter_id, forallb_forall; auto).
  destruct min as [m|];
    [|intros H; injection H as <-; now exists (fun _ => true)].
  destruct (m <=? 0);
    [intros H; injection H as <-; now exists (fun _ => true)|].
  destruct (keep_min_arch_cases archs m)
    as [[_ ->]|(? & ? & ? & ? & _ & _ & _ & ->)]; [|discriminate].
  intros H. injection H as <-. now exists (fun a => m <=? num a).
Qed.

Lemma platform_filter_is_filter machine archs :
  exists keep : string -> bool,
    filter_archs_for_platform machine archs = filter keep archs.
Proof.
  unfold filter_archs_for_platform.
  destruct (negb (mem (Str.lower machine) ["x86_64"; "amd64"])).
  - exists (fun _ => true).
    symmetry. apply forallb_filter_id, forallb_forall. auto.
  - now eexists.
Qed.

Lemma probed_spec w a sup minf pf :
  probed w a = Ok (sup, minf, pf) ->
  parse_code_ls (located_nvcc w a)
    (subprocess_run w [located_nvcc w a; "-code-ls"]) = Ok sup /\
  filter_archs_with_min_arch sup (min_arch a) = Ok minf /\
  pf = filter_archs_for_platform (platform_machine w) minf.
Proof.
  unfold probed.
  destruct (parse_code_ls _ _) as [sup'| |]; simpl; try discriminate.
  destruct (filter_archs_with_min_arch sup' (min_arch a)) as [minf'| |] eqn:E;
    simpl; try discriminate.
  intros H. injection H as <- <- <-. auto.
Qed.

Lemma probed_lists w a sup minf pf :
  probed w a = Ok (sup, minf, pf) ->
  sup <> [] /\ NoDup sup /\ StronglySorted arch_le sup /\
  (exists keep, minf = filter keep sup) /\
  (exists keep, pf = filter keep minf) /\
  incl minf sup /\ incl pf minf /\
  NoDup minf /\ StronglySorted arch_le minf /\
  NoDup pf /\ StronglySorted arch_le pf.
Proof.
  intros H. apply probed_spec in H as (Hsup & Hmin & ->).
  destruct (parse_code_ls_sorted_nodup _ _ _ Hsup) as (Hne & Hnd & Hs).
  destruct (min_filter_is_filter _ _ _ Hmin) as [k1 ->].
  destruct (platform_filter_is_filter (platform_machine w) (filter k1 sup))
    as [k2 ->].
  repeat split; try assumption; eauto using incl_filter, NoDup_filter,
    StronglySorted_filter_arch.
Qed.

(** X13.  The three lists a run works with are nested: the supported list
    is not empty, is in canonical order and holds no token twice; the
    minimum-filtered list is the supported list with tokens taken out, and
    the platform-filtered list is the minimum-filtered list with tokens
    taken out.  Neither filter brings in a token or changes the order, so
    both filtered lists are in canonical order without repetition. *)
Theorem filter_chain_nested (w : world) (a : args)
  (sup minf pf : list string) :
  probed w a = Ok (sup, minf, pf) ->
  sup <> [] /\ NoDup sup /\ StronglySorted arch_le sup /\
  (exists keep, minf = filter keep sup) /\
  (exists keep, pf = filter keep minf) /\
  incl minf sup /\ incl pf minf /\
  NoDup minf /\ StronglySorted arch_le minf /\
  NoDup pf /\ StronglySorted arch_le pf.
Proof. apply probed_lists. Qed.

Lemma filter_chain_nested_witness :
  let w := toolchain_listing "sm_87
sm_75
sm_90
sm_90a" "x86_64" in
  exists sup minf pf,
    probed w (request "all" (Some 80)) = Ok (sup, minf, pf) /\
    incl pf minf /\ incl minf sup /\ StronglySorted arch_le pf.
Proof.
  intros w. exists ["75"; "87"; "90"; "90a"], ["87"; "90"; "90a"], ["90"; "90a"].
  destruct (filter_chain_nested w (request "all" (Some 80))
              ["75"; "87"; "90"; "90a"] ["87"; "90"; "90a"] ["90"; "90a"]
              eq_refl) as (_ & _ & _ & _ & _ & H1 & H2 & _ & _ & _ & H3).
  repeat split; assumption.
Defined.

Lemma Forall_filter_fits (keep : string -> bool) l :
  Forall fits l -> Forall fits (filter keep l).
Proof.
  rewrite !Forall_forall. intros H a Ha. apply H.
  now apply filter_In in Ha as [Ha _].
Qed.

Lemma probed_fits w a sup minf pf :
  probed w a = Ok (sup, minf, pf) ->
  Forall fits sup /\ Forall fits minf /\ Forall fits pf.
Proof.
  intros H. pose proof H as H'.
  apply probed_spec in H as (Hsup & Hmin & ->).
  apply parse_code_ls_fits in Hsup.
  destruct (min_filter_is_filter _ _ _ Hmin) as [k1 ->].
  destruct (platform_filter_is_filter (platform_machine w) (filter k1 sup))
    as [k2 ->].
  auto using Forall_filter_fits.
Qed.

Lemma dispatched_spec w a targets :
  dispatched w a = Ok targets ->
  exists sup minf pf,
    probed w a = Ok (sup, minf, pf) /\
    main_dispatch a sup minf pf = Ok targets.
Proof.
  unfold dispatched. destruct (probed w a) as [[[sup minf] pf]| |];
    simpl; try discriminate.
  intros H. now exists sup, minf, pf.
Qed.

(** X14.  For the requests [all] and [all-major] the target list is in
    canonical order and holds no token twice, so the sort of the
    formatter leaves it as it is: when it is not empty, what is printed is
    the [-real] entries of the target list in the order of the list, then
    one [-virtual] entry, joined by semicolons. *)
Theorem mode_targets_already_canonical (w : world) (a : args)
  (targets : list string) :
  Str.lower (requested_archs a) = "all"
  \/ Str.lower (requested_archs a) = "all-major" ->
  dispatched w a = Ok targets ->
  NoDup targets /\ StronglySorted arch_le targets /\
  sorted targets = Ok targets /\
  (targets <> [] ->
   how (run w (main a)) = Finished /\
   exists base,
     In base targets /\
     stdout (run w (main a))
     = Str.join ";" (map real targets ++ [virtual base])%list).
Proof.
  intros Hmode Hd.
  assert (NoDup targets /\ StronglySorted arch_le targets
          /\ Forall fits targets) as (Hnd & Hs & Hfit).
  { destruct (dispatched_spec _ _ _ Hd) as (sup & minf & pf & Hp & Hm).
    destruct (probed_lists _ _ _ _ _ Hp)
      as (_ & _ & _ & _ & _ & _ & _ & _ & _ & Hnd & Hs).
    destruct (probed_fits _ _ _ _ _ Hp) as (_ & _ & Hfit).
    unfold main_dispatch in Hm.
    destruct Hmode as [E|E]; rewrite E in Hm; simpl in Hm;
      injection Hm as <-; [auto|].
    unfold filter_major_archs.
    split; [now apply NoDup_filter|].
    split; [now apply StronglySorted_filter_arch
           |now apply Forall_filter_fits]. }
  assert (in_order targets = targets) as Hid
      by (now apply in_order_id, StronglySorted_Sorted).
  assert (Str.lower (requested_archs a) <> "native") as Hn
      by (destruct Hmode as [E|E]; rewrite E; discriminate).
  split; [assumption|]. split; [assumption|].
  split; [now rewrite (sorted_fits _ Hfit), Hid|].
  intros Hne.
  rewrite (run_main_probing w a Hn). unfold printed. rewrite Hd.
  cbn [rbind]. rewrite (generate_nonempty targets Hne Hfit), Hid.
  destruct targets as [|t targets']; [congruence|].
  split; [reflexivity|].
  exists (ptx_target_base (t :: targets')).
  split; [apply ptx_target_base_In; discriminate|reflexivity].
Qed.

Lemma mode_targets_already_canonical_witness :
  let w := toolchain_listing "sm_90a
sm_100
sm_75
sm_80" "x86_64" in
  sorted ["80"; "100"] = Ok ["80"; "100"] /\
  how (run w (main (request "ALL-major" None))) = Finished.
Proof.
  intros w.
  destruct (mode_targets_already_canonical w (request "ALL-major" None)
              ["80"; "100"]) as (_ & _ & H1 & H2).
  - right. reflexivity.
  - reflexivity.
  - split; [exact H1|]. apply H2. discriminate.
Defined.

(** X15.  The formatter takes any list that is not empty, in any order and
    with repetitions, whose tokens have 4300 leading digits at most: its
    output has one entry more than the list, the [-real] entries are
    those of the tokens of the list put in canonical order, and a token
    that occurs several times in the list has as many [-real] entries.
    With a token of more than 4300 leading digits it raises
    [ValueError]. *)
Theorem formatter_sorts_keeps_repetitions (target_archs : list string) :
  target_archs <> [] ->
  ((exists a, In a target_archs /\ ~ fits a) ->
   generate_sass_ptx_arch_list target_archs = Raise "ValueError") /\
  ((forall a, In a target_archs -> fits a) ->
   exists ordered base,
     generate_sass_ptx_arch_list target_archs
     = Ok (map real ordered ++ [virtual base])%list /\
     Permutation ordered target_archs /\
     StronglySorted arch_le ordered /\
     List.length (map real ordered ++ [virtual base])%list
     = S (List.length target_archs) /\
     forall a,
       count_occ string_dec (map real ordered ++ [virtual base])%list (real a)
       = count_occ string_dec target_archs a).
Proof.
  intros Hne. split.
  - intros H. apply generate_too_long; [assumption|].
    now apply Exists_not_fits.
  - intros Hfit. apply Forall_fits in Hfit.
    exists (in_order target_archs),
           (ptx_target_base (in_order target_archs)).
    split; [now apply generate_nonempty|].
    split; [apply in_order_perm|]. split; [apply in_order_sorted|].
    split.
    + rewrite length_app, length_map, (Permutation_length (in_order_perm _)).
      simpl. lia.
    + intros a. rewrite count_occ_real.
      apply Permutation_count_occ, in_order_perm.
Qed.

Lemma formatter_sorts_keeps_repetitions_witness :
  exists ordered base,
    generate_sass_ptx_arch_list ["90"; "75"; "90"]
    = Ok (map real ordered ++ [virtual base])%list /\
    Permutation ordered ["90"; "75"; "90"] /\
    StronglySorted arch_le ordered /\
    List.length (map real ordered ++ [virtual base])%list = 4%nat /\
    forall a,
      count_occ string_dec (map real ordered ++ [virtual base])%list (real a)
      = count_occ string_dec ["90"; "75"; "90"] a.
Proof.
  destruct (formatter_sorts_keeps_repetitions ["90"; "75"; "90"])
    as (_ & H); [discriminate|].
  apply H. all_fit.
Defined.

(** ** Whole runs *)

Lemma validate_user_archs_die user sup minf pf min msg :
  validate_user_archs user sup minf pf min = Die msg ->
  msg = "Requested architecture list is empty."
  \/ exists arch, rejected sup minf pf min arch msg.
Proof.
  unfold validate_user_archs.
  destruct user as [|u rest] eqn:Eu;
    [intros H; injection H as <-; now left|].
  rewrite <- Eu.
  destruct (validate_loop_spec sup minf pf min user [])
    as [[_ Hok]|(before & t & after & msg' & _ & _ & Hrej & Hdie)];
    intros H.
  - rewrite Hok in H. discriminate.
  - rewrite Hdie in H. injection H as <-. right. now exists t.
Qed.

Lemma parse_code_ls_die nvcc r msg :
  parse_code_ls nvcc r = Die msg ->
  (exists c rest, msg = String c rest /\ c <> "C"%char /\ c <> "N"%char)
  \/ (exists rest, msg = String "C" (String "o" rest)).
Proof.
  destruct r as [|stderr|stdout].
  - simpl. intros H. injection H as <-. left. do 2 eexists.
    split; [reflexivity|split; discriminate].
  - simpl. intros H. injection H as <-. right. eexists. reflexivity.
  - destruct (parse_code_ls_cases nvcc stdout)
      as [[_ Hp]|[(_ & _ & Hp)|(_ & _ & Hp)]]; rewrite Hp;
      try discriminate.
    intros H. injection H as <-. right. eexists. reflexivity.
Qed.

Lemma dispatched_die w a msg :
  dispatched w a = Die msg ->
  (exists c rest, msg = String c rest /\ c <> "C"%char /\ c <> "N"%char)
  \/ (exists rest, msg = String "C" (String "o" rest)).
Proof.
  unfold dispatched, probed.
  destruct (parse_code_ls _ _) as [sup|msg0|] eqn:Ep; cbn [rbind];
    try discriminate.
  2:{ intros H. injection H as <-. now apply parse_code_ls_die in Ep. }
  destruct (filter_archs_with_min_arch sup (min_arch a))
    as [minf|msg0|] eqn:Emin; cbn [rbind]; try discriminate;
    [|now apply min_filter_never_dies in Emin].
  unfold main_dispatch.
  destruct (String.eqb _ "all"); [discriminate|].
  destruct (String.eqb _ "all-major"); [discriminate|].
  intros Ed. left.
  apply validate_user_archs_die in Ed as [->|(arch & Hrej)].
  - do 2 eexists. split; [reflexivity|split; discriminate].
  - destruct Hrej as [(_ & ->)|[(_ & _ & ->)|(_ & _ & _ & ->)]];
      do 2 eexists; (split; [reflexivity|split; discriminate]).
Qed.

Lemma generate_never_dies_nonempty l msg :
  l <> [] -> generate_sass_ptx_arch_list l <> Die msg.
Proof.
  intros Hne. destruct (fits_all_or_not l) as [H|H].
  - rewrite (generate_nonempty l Hne H). discriminate.
  - rewrite (generate_too_long l Hne H). discriminate.
Qed.

Lemma printed_die_message w a msg :
  printed w a = Die msg ->
  (exists c rest, msg = String c rest /\ c <> "C"%char)
  \/ (exists rest, msg = String "C" (String "o" rest)).
Proof.
  unfold printed.
  destruct (dispatched w a) as [[|t targets]|msg0|] eqn:Ed; cbn [rbind];
    try discriminate.
  - intros H. injection H as <-. left. do 2 eexists.
    split; [reflexivity|discriminate].
  - destruct (generate_sass_ptx_arch_list (t :: targets)) eqn:Eg;
      cbn [rbind]; try discriminate.
    now apply generate_never_dies_nonempty in Eg.
  - intros H. injection H as <-.
    destruct (dispatched_die w a _ Ed) as [(c & rest & -> & Hc & _)|H];
      [left; eauto|now right].
Qed.

(** X16.  The check of the formatter for an empty list is never what ends
    a run: whatever the request and the outside are, the program does not
    die with the message of that check, the empty target list being
    refused with a message of its own before the formatter is called. *)
Theorem formatter_never_dies_in_a_run (w : world) (a : args) :
  how (run w (main a))
  <> Died "Cannot generate SASS/PTX list from empty target architectures.".
Proof.
  destruct (String.eqb_spec (Str.lower (requested_archs a)) "native")
    as [Hn|Hn].
  - rewrite (run_main_native w a Hn). discriminate.
  - rewrite (run_main_probing w a Hn).
    destruct (printed w a) as [text|msg|exn] eqn:E; simpl; try discriminate.
    apply printed_die_message in E as [(c & rest & -> & Hc)|[rest ->]].
    + intros H. injection H as H _. congruence.
    + discriminate.
Qed.



Lemma keep_min_arch_attribute_error archs m :
  Forall fits archs ->
  (exists a, In a archs /\ re_match_digits a = None) ->
  keep_min_arch archs m = Raise "AttributeError".
Proof.
  intros Hfit (x & Hx & Hnd). rewrite Forall_forall in Hfit.
  destruct (good_or_first_bad archs)
    as [H|(before & bad & after & -> & Hb & Hbad)].
  - destruct (H x Hx) as [N _]. contradiction.
  - destruct (keep_min_arch_first_bad before bad after m Hb) as [H1 _].
    destruct Hbad as [Hbad|Hbad]; [now apply H1|].
    exfalso. apply Hbad, Hfit, in_or_app. right. now left.
Qed.

(** X18.  With a positive minimum, a listing whose identifiers have 4300
    leading digits at most and that has a line [sm_] followed by
    something that does not start with a digit makes a run that is not
    the [native] one end in an uncaught [AttributeError]: exit code 1,
    nothing printed and no message of the program. *)
Theorem malformed_listing_crashes (w : world) (a : args)
  (listing line x : string) (m : Z) :
  Str.lower (requested_archs a) <> "native" ->
  min_arch a = Some m -> 0 < m ->
  subprocess_run w [located_nvcc w a; "-code-ls"] = Completed listing ->
  (forall line' x', In line' (code_ls_lines listing) ->
                    Str.strip line' = "sm_" ++ x' -> fits x') ->
  In line (code_ls_lines listing) -> Str.strip line = "sm_" ++ x ->
  re_match_digits x = None ->
  how (run w (main a)) = Crashed "AttributeError" /\
  exit_code (how (run w (main a))) = 1 /\
  stdout (run w (main a)) = "".
Proof.
  intros Hn Hmin Hm Hrun Hall Hl Hx Hnd.
  rewrite (run_main_probing w a Hn).
  unfold printed, dispatched, probed. rewrite Hrun, Hmin.
  pose proof (collect_sm_In (code_ls_lines listing) []) as HIn.
  assert (In x (collect_sm (code_ls_lines listing) [])) as Hin
      by (apply HIn; right; eauto).
  destruct (parse_code_ls_cases (located_nvcc w a) listing)
    as [[Hraw _]|[(_ & Hfit & Hp)|(_ & Hlong & _)]].
  - rewrite Hraw in Hin. contradiction.
  - rewrite Hp. cbn [rbind]. unfold filter_archs_with_min_arch.
    rewrite (proj2 (Z.leb_gt m 0) Hm).
    rewrite keep_min_arch_attribute_error; [simpl; auto| |].
    + apply (Permutation_Forall (Permutation_sym (in_order_perm _)) Hfit).
    + exists x. split; [now apply in_order_In|assumption].
  - exfalso. apply Exists_exists in Hlong as (y & Hy & Hny). apply Hny.
    apply HIn in Hy as [[]|(l & Hl' & El)]. eauto.
Qed.

Lemma malformed_listing_crashes_witness :
  how (run (toolchain_listing "sm_90
sm_" "x86_64") (main (request "all" (Some 80))))
  = Crashed "AttributeError".
Proof.
  destruct (malformed_listing_crashes (toolchain_listing "sm_90
sm_" "x86_64") (request "all" (Some 80)) "sm_90
sm_" "sm_" "" 80) as (H & _).
  - vm_compute. discriminate.
  - reflexivity.
  - lia.
  - reflexivity.
  - intros line' x' Hl El. vm_compute in Hl.
    destruct Hl as [<-|[<-|[]]]; vm_compute in El; injection El as <-;
      vm_compute; discriminate.
  - vm_compute. auto.
  - reflexivity.
  - reflexivity.
  - exact H.
Defined.

(** ** Explicit requests *)

Lemma sep_lower c : is_sep c = true -> Char.lower c = c.
Proof.
  destruct c as [[] [] [] [] [] [] [] []]; vm_compute; intros H;
    try reflexivity; discriminate H.
Qed.

Lemma blank_lower req :
  Str.forallb is_sep req = true -> Str.lower req = req.
Proof.
  induction req as [|c req IH]; simpl; [reflexivity|].
  rewrite andb_true_iff. intros [Hc Hs]. now rewrite (sep_lower c Hc), IH.
Qed.

Lemma blank_not_a_mode req :
  Str.forallb is_sep req = true ->
  Str.lower req <> "native" /\ Str.lower req <> "all"
  /\ Str.lower req <> "all-major".
Proof.
  intros H. rewrite (blank_lower req H).
  repeat split; intros ->; vm_compute in H; discriminate H.
Qed.

Lemma dispatched_probed w a sup minf pf :
  probed w a = Ok (sup, minf, pf) ->
  dispatched w a = main_dispatch a sup minf pf.
Proof. unfold dispatched. now intros ->. Qed.

Lemma main_dispatch_explicit a sup minf pf :
  Str.lower (requested_archs a) <> "all" ->
  Str.lower (requested_archs a) <> "all-major" ->
  main_dispatch a sup minf pf
  = validate_user_archs (parse_requested_archs (requested_archs a))
      sup minf pf (min_arch a).
Proof.
  intros Ha Hm. unfold main_dispatch.
  apply String.eqb_neq in Ha, Hm. now rewrite Ha, Hm.
Qed.

(** X19.  A request that is empty or made of white space and commas only
    is no mode and names no token: once the toolchain has been probed the
    run dies with the message that the requested list is empty, exit code
    1 and nothing printed. *)
Theorem blank_request_is_refused (w : world) (a : args)
  (sup minf pf : list string) :
  Str.forallb is_sep (requested_archs a) = true ->
  probed w a = Ok (sup, minf, pf) ->
  how (run w (main a)) = Died "Requested architecture list is empty." /\
  exit_code (how (run w (main a))) = 1 /\
  stdout (run w (main a)) = "".
Proof.
  intros Hb Hp. destruct (blank_not_a_mode _ Hb) as (Hn & Ha & Hm).
  rewrite (run_main_probing w a Hn). unfold printed.
  rewrite (dispatched_probed _ _ _ _ _ Hp), (main_dispatch_explicit _ _ _ _ Ha Hm).
  assert (parse_requested_archs (requested_archs a) = []) as ->.
  { unfold parse_requested_archs.
    destruct (String.eqb (requested_archs a) ""); [reflexivity|].
    destruct (filter nonempty (re_split (Str.strip (requested_archs a))))
      as [|t ts] eqn:E; [reflexivity|].
    assert (In t (filter nonempty (re_split (Str.strip (requested_archs a)))))
      as Hin by (rewrite E; now left).
    apply filter_In in Hin as [Hin Hne]. unfold re_split in Hin.
    rewrite <- strip_all_sep in Hb.
    apply (split_runs_all_sep _ _ _ Hb) in Hin. subst. discriminate. }
  simpl. auto.
Qed.

Lemma blank_request_is_refused_witness :
  how (run (toolchain_listing "sm_90" "x86_64") (main (request " , " None)))
  = Died "Requested architecture list is empty.".
Proof.
  destruct (blank_request_is_refused (toolchain_listing "sm_90" "x86_64")
              (request " , " None) ["90"] ["90"] ["90"] eq_refl eq_refl)
    as (H & _).
  exact H.
Defined.

(** X20.  For an explicit list, so a request that is neither [all] nor
    [all-major], the target list is never empty: either the validator
    dies or it gives one token at least.  The message that no valid
    architecture could be determined can come only from [all] and
    [all-major]. *)
Theorem explicit_targets_never_empty (w : world) (a : args) :
  Str.lower (requested_archs a) <> "all" ->
  Str.lower (requested_archs a) <> "all-major" ->
  dispatched w a <> Ok [] /\
  forall machine, how (run w (main a)) <> Died (msg_no_valid a machine).
Proof.
  intros Ha Hm.
  assert (dispatched w a <> Ok []) as Hd.
  { intros Hd. destruct (dispatched_spec _ _ _ Hd)
      as (sup & minf & pf & _ & Hmd).
    rewrite (main_dispatch_explicit _ _ _ _ Ha Hm) in Hmd.
    apply validate_user_archs_ok in Hmd as (E & Hne & _). congruence. }
  split; [exact Hd|]. intros machine.
  destruct (String.eqb_spec (Str.lower (requested_archs a)) "native")
    as [Hn|Hn].
  { rewrite (run_main_native w a Hn). discriminate. }
  rewrite (run_main_probing w a Hn). unfold printed.
  destruct (dispatched w a) as [[|t targets]|msg|] eqn:E; cbn [rbind].
  - congruence.
  - assert (t :: targets <> []) as Hne by discriminate.
    destruct (fits_all_or_not (t :: targets)) as [H|H].
    + rewrite (generate_nonempty _ Hne H). discriminate.
    + rewrite (generate_too_long _ Hne H). discriminate.
  - destruct (dispatched_die w a msg E)
      as [(c & rest & -> & _ & Hc)|[rest ->]];
      unfold msg_no_valid; simpl; intros H; [|discriminate H].
    injection H as H _. congruence.
  - discriminate.
Qed.

Lemma explicit_targets_never_empty_witness :
  dispatched (toolchain_listing "sm_90" "x86_64") (request "80" None)
  <> Ok [].
Proof.
  apply (explicit_targets_never_empty (toolchain_listing "sm_90" "x86_64")
           (request "80" None)); vm_compute; discriminate.
Defined.

Lemma validate_user_archs_all_pass user sup minf pf min :
  user <> [] -> Forall (passes sup minf pf) user ->
  validate_user_archs user sup minf pf min = Ok user.
Proof.
  intros Hne Hall. unfold validate_user_archs.
  destruct user as [|u rest] eqn:Eu; [congruence|]. rewrite <- Eu in *.
  destruct (validate_loop_spec sup minf pf min user [])
    as [[_ Hok]|(before & t & after & msg & E & _ & Hrej & _)];
    [exact Hok|].
  exfalso. rewrite Forall_forall in Hall.
  assert (passes sup minf pf t) as (H1 & H2 & H3)
      by (apply Hall; rewrite E; apply in_or_app; right; now left).
  destruct Hrej as [(N & _)|[(_ & N & _)|(_ & _ & N & _)]]; contradiction.
Qed.

(** X21.  In a run the three checks of the validator come to one: the
    filtered lists being parts of the supported list, an explicit list is
    accepted exactly when it names a token and each of its tokens is in
    the platform-filtered list.  What is accepted is the list of tokens
    as typed, and the run then prints their [-real] entries in canonical
    order and one [-virtual] entry. *)
Theorem explicit_request_accepted_iff (w : world) (a : args)
  (sup minf pf : list string) :
  Str.lower (requested_archs a) <> "native" ->
  Str.lower (requested_archs a) <> "all" ->
  Str.lower (requested_archs a) <> "all-major" ->
  probed w a = Ok (sup, minf, pf) ->
  let tokens := parse_requested_archs (requested_archs a) in
  (dispatched w a = Ok tokens <->
   tokens <> [] /\ forall t, In t tokens -> In t pf) /\
  (forall targets, dispatched w a = Ok targets -> targets = tokens) /\
  (dispatched w a = Ok tokens ->
   how (run w (main a)) = Finished /\
   exists ordered,
     sorted tokens = Ok ordered /\
     stdout (run w (main a))
     = Str.join ";" (map real ordered
                       ++ [virtual (ptx_target_base ordered)])%list).
Proof.
  intros Hn Ha Hm Hp tokens.
  rewrite (dispatched_probed _ _ _ _ _ Hp), (main_dispatch_explicit _ _ _ _ Ha Hm).
  fold tokens.
  destruct (probed_lists _ _ _ _ _ Hp)
    as (_ & _ & _ & _ & _ & Hi1 & Hi2 & _).
  split; [split|split].
  - intros H. apply validate_user_archs_ok in H as (_ & Hne & Hall).
    split; [assumption|]. rewrite Forall_forall in Hall.
    intros t Ht. now apply Hall.
  - intros [Hne Hall]. apply validate_user_archs_all_pass; [assumption|].
    apply Forall_forall. intros t Ht. specialize (Hall t Ht).
    repeat split; auto.
  - intros targets H. now apply validate_user_archs_ok in H as (-> & _).
  - intros H.
    pose proof (validate_user_archs_ok _ _ _ _ _ _ H) as (_ & Hne & Hall).
    assert (Forall fits tokens) as Hfit.
    { destruct (probed_fits _ _ _ _ _ Hp) as (_ & _ & Hfpf).
      rewrite Forall_forall in *. intros t Ht.
      apply Hfpf. now apply (Hall t Ht). }
    rewrite (run_main_probing w a Hn). unfold printed.
    rewrite (dispatched_probed _ _ _ _ _ Hp),
      (main_dispatch_explicit _ _ _ _ Ha Hm).
    fold tokens. rewrite H. cbn [rbind].
    rewrite (generate_nonempty tokens Hne Hfit).
    destruct tokens as [|t tokens'] eqn:Et; [congruence|]. rewrite <- Et in *.
    split; [rewrite Et; reflexivity|].
    exists (in_order tokens). split; [now apply sorted_fits|].
    rewrite Et. reflexivity.
Qed.

Lemma explicit_request_accepted_iff_witness :
  let w := toolchain_listing "sm_75
sm_87
sm_90
sm_90a" "x86_64" in
  stdout (run w (main (request "90a,75 90a" None)))
  = "75-real;90a-real;90a-real;75-virtual".
Proof.
  intros w.
  destruct (explicit_request_accepted_iff w (request "90a,75 90a" None)
              ["75"; "87"; "90"; "90a"] ["75"; "87"; "90"; "90a"]
              ["75"; "90"; "90a"])
    as (H1 & _ & H3); try (vm_compute; discriminate); [reflexivity|].
  destruct H3 as (_ & ordered & H3 & H4).
  - apply H1. split; [discriminate|].
    intros t Ht. vm_compute in Ht.
    destruct Ht as [<-|[<-|[<-|[]]]]; vm_compute; auto.
  - vm_compute in H3. injection H3 as <-. exact H4.
Defined.
